(** * A shallow embedding of the HTML builder [g] (html.go, render.go)

    The package under study is the one of html.go, with the entry point
    and the [Node] interface of render.go; nodes.go and the second half of
    render.go hold older variants of the same code and are not modelled.

    Go strings are byte sequences: they are modelled by [string], whose
    characters are the 256 byte values.  A [rune] is an [int32], modelled
    by [Z].  The attribute map [KV] is a finite map from strings to values
    of Go's [any]; nodes are the closed sum of the two implementations of
    the [Node] interface that the package defines, [Text] and [*Element].
    Functions that return [(string, error)] return a pair whose second
    component is [None] for Go's [nil] error.  A [strings.Builder] is the
    string written so far, threaded through the functions that write. *)

From Stdlib Require Import ZArith Ascii.
From stdpp Require Import base list strings gmap sorting.

Local Open Scope Z_scope.

(** ** Bytes and runes *)

Definition rune := Z.

(** [rune(b)] for a byte [b]: the conversion used by [rune(s[0])]. *)
Definition rune_of_byte (b : Ascii.ascii) : rune := Z.of_N (Ascii.N_of_ascii b).

(** [s[i]]; Go panics out of range, every use below is in range. *)
Definition byteAt (s : string) (i : nat) : Ascii.ascii :=
  default "000"%char (String.get i s).

(** [s[i:]] and [s[:j]]. *)
Fixpoint sliceFrom (i : nat) (s : string) : string :=
  match i, s with
  | O, _ => s
  | S i', String _ t => sliceFrom i' t
  | S _, EmptyString => EmptyString
  end.

Fixpoint sliceTo (j : nat) (s : string) : string :=
  match j, s with
  | O, _ => EmptyString
  | S j', String c t => String c (sliceTo j' t)
  | S _, EmptyString => EmptyString
  end.

(** The double quote character, as a string. *)
Definition dquote : string := String "034"%char EmptyString.

(** ** Package [unicode/utf8] of the Go standard library *)

Definition utf8_RuneError : rune := 0xFFFD.
Definition utf8_RuneSelf : Z := 0x80.
Definition utf8_UTFMax : nat := 4.

(** One entry of the table [first]: ASCII, an invalid leading byte, or the
    leading byte of a sequence of [sz] bytes whose second byte must lie in
    the accept range [lo..hi]. *)
Inductive firstInfo :=
| FirstASCII
| FirstInvalid
| FirstMulti (sz : nat) (lo hi : Z).

Definition utf8_first (s0 : Z) : firstInfo :=
  if s0 <? 0x80 then FirstASCII
  else if s0 <? 0xC2 then FirstInvalid
  else if s0 <? 0xE0 then FirstMulti 2 0x80 0xBF
  else if s0 =? 0xE0 then FirstMulti 3 0xA0 0xBF
  else if s0 <? 0xED then FirstMulti 3 0x80 0xBF
  else if s0 =? 0xED then FirstMulti 3 0x80 0x9F
  else if s0 <? 0xF0 then FirstMulti 3 0x80 0xBF
  else if s0 =? 0xF0 then FirstMulti 4 0x90 0xBF
  else if s0 <? 0xF4 then FirstMulti 4 0x80 0xBF
  else if s0 =? 0xF4 then FirstMulti 4 0x80 0x8F
  else FirstInvalid.

(** Continuation bytes lie in [locb..hicb]. *)
Definition utf8_iscont (b : Z) : bool := (0x80 <=? b) && (b <=? 0xBF).

(** [utf8.DecodeRuneInString]: the first rune of [s] and its width in
    bytes; an invalid or truncated encoding gives [(RuneError, 1)]. *)
Definition utf8_DecodeRuneInString (s : string) : rune * nat :=
  match s with
  | EmptyString => (utf8_RuneError, 0%nat)
  | String c0 t0 =>
    let s0 := rune_of_byte c0 in
    match utf8_first s0 with
    | FirstASCII => (s0, 1%nat)
    | FirstInvalid => (utf8_RuneError, 1%nat)
    | FirstMulti sz lo hi =>
      if (String.length s <? sz)%nat then (utf8_RuneError, 1%nat) else
      match t0 with
      | EmptyString => (utf8_RuneError, 1%nat)
      | String c1 t1 =>
        let s1 := rune_of_byte c1 in
        if (s1 <? lo) || (hi <? s1) then (utf8_RuneError, 1%nat) else
        if (sz <=? 2)%nat then
          (Z.lor (Z.shiftl (Z.land s0 0x1F) 6) (Z.land s1 0x3F), 2%nat)
        else
        match t1 with
        | EmptyString => (utf8_RuneError, 1%nat)
        | String c2 t2 =>
          let s2 := rune_of_byte c2 in
          if negb (utf8_iscont s2) then (utf8_RuneError, 1%nat) else
          if (sz <=? 3)%nat then
            (Z.lor (Z.lor (Z.shiftl (Z.land s0 0x0F) 12)
                          (Z.shiftl (Z.land s1 0x3F) 6))
                   (Z.land s2 0x3F), 3%nat)
          else
          match t2 with
          | EmptyString => (utf8_RuneError, 1%nat)
          | String c3 _ =>
            let s3 := rune_of_byte c3 in
            if negb (utf8_iscont s3) then (utf8_RuneError, 1%nat) else
            (Z.lor (Z.lor (Z.lor (Z.shiftl (Z.land s0 0x07) 18)
                                 (Z.shiftl (Z.land s1 0x3F) 12))
                          (Z.shiftl (Z.land s2 0x3F) 6))
                   (Z.land s3 0x3F), 4%nat)
          end
        end
      end
    end
  end.

(** [utf8.RuneStart]: the byte is not a continuation byte. *)
Definition utf8_RuneStart (b : Ascii.ascii) : bool :=
  negb (Z.land (rune_of_byte b) 0xC0 =? 0x80).

(** The backwards scan of [utf8.DecodeLastRuneInString]:
    [for start--; start >= lim; start-- { if RuneStart(s[start]) { break } }],
    entered after the decrement. *)
Fixpoint scanRuneStart (fuel : nat) (s : string) (start lim : Z) : Z :=
  match fuel with
  | O => start
  | S fuel' =>
    if start <? lim then start
    else if utf8_RuneStart (byteAt s (Z.to_nat start)) then start
    else scanRuneStart fuel' s (start - 1) lim
  end.

(** [utf8.DecodeLastRuneInString]. *)
Definition utf8_DecodeLastRuneInString (s : string) : rune * nat :=
  let end_ := String.length s in
  if (end_ =? 0)%nat then (utf8_RuneError, 0%nat) else
  let start := (end_ - 1)%nat in
  let r := rune_of_byte (byteAt s start) in
  if r <? utf8_RuneSelf then (r, 1%nat) else
  let lim := Z.max (Z.of_nat end_ - Z.of_nat utf8_UTFMax) 0 in
  let start := scanRuneStart utf8_UTFMax s (Z.of_nat start - 1) lim in
  let start := if start <? 0 then 0 else start in
  let '(r, size) := utf8_DecodeRuneInString (sliceFrom (Z.to_nat start) s) in
  if negb (start + Z.of_nat size =? Z.of_nat end_) then (utf8_RuneError, 1%nat)
  else (r, size).

(** [for _, r := range s]: the runes of [s] in order, each with the bytes
    it was decoded from. *)
Fixpoint rangeString (s : string) : list (rune * string) :=
  match s with
  | EmptyString => []
  | String c0 t0 =>
    let '(r, size) := utf8_DecodeRuneInString s in
    match size, t0 with
    | 2%nat, String c1 t1 =>
        (r, String c0 (String c1 EmptyString)) :: rangeString t1
    | 3%nat, String c1 (String c2 t2) =>
        (r, String c0 (String c1 (String c2 EmptyString))) :: rangeString t2
    | 4%nat, String c1 (String c2 (String c3 t3)) =>
        (r, String c0 (String c1 (String c2 (String c3 EmptyString))))
          :: rangeString t3
    | _, _ => (r, String c0 EmptyString) :: rangeString t0
    end
  end.

(** The bytes of a sequence of decoded runes. *)
Fixpoint runeBytes (rs : list (rune * string)) : string :=
  match rs with
  | [] => ""
  | c :: rest => c.2 +:+ runeBytes rest
  end.

(** ** Package [unicode] *)

Definition unicode_MaxLatin1 : Z := 0xFF.

(** The ranges of the table [White_Space] above Latin-1. *)
Definition unicode_White_Space : list (Z * Z) :=
  [(0x1680, 0x1680); (0x2000, 0x200a); (0x2028, 0x2029);
   (0x202f, 0x202f); (0x205f, 0x205f); (0x3000, 0x3000)].

(** [unicode.IsSpace]. *)
Definition unicode_IsSpace (r : rune) : bool :=
  if (0 <=? r) && (r <=? unicode_MaxLatin1) then
    (r =? 0x09) || (r =? 0x0A) || (r =? 0x0B) || (r =? 0x0C) || (r =? 0x0D)
    || (r =? 0x20) || (r =? 0x85) || (r =? 0xA0)
  else existsb (λ '(lo, hi), (lo <=? r) && (r <=? hi)) unicode_White_Space.

(** ** Package [strings] *)

(** [strings.Join]. *)
Fixpoint strings_Join (elems : list string) (sep : string) : string :=
  match elems with
  | [] => ""
  | [e] => e
  | e :: rest => e +:+ sep +:+ strings_Join rest sep
  end.

(** The loop of [strings.FieldsFunc] over the runes of the string; [cur]
    is the field being read ([start >= 0] in the Go code, with the bytes
    from [start] up to the current position). *)
Fixpoint fieldsLoop (f : rune → bool) (rs : list (rune * string))
    (cur : option string) : list string :=
  match rs with
  | [] => match cur with Some w => [w] | None => [] end
  | (r, bs) :: rest =>
    if f r then
      match cur with
      | Some w => w :: fieldsLoop f rest None
      | None => fieldsLoop f rest None
      end
    else
      fieldsLoop f rest (Some (match cur with Some w => w +:+ bs | None => bs end))
  end.

(** [strings.FieldsFunc]: the maximal runs of runes that do not satisfy [f]. *)
Definition strings_FieldsFunc (s : string) (f : rune → bool) : list string :=
  fieldsLoop f (rangeString s) None.

(** [strings.TrimLeftFunc]: the string from the first rune that does not
    satisfy [f] on, [""] when there is none. *)
Fixpoint trimLeftRunes (f : rune → bool) (rs : list (rune * string)) : string :=
  match rs with
  | [] => ""
  | (r, bs) :: rest =>
    if f r then trimLeftRunes f rest
    else bs +:+ runeBytes rest
  end.

Definition strings_TrimLeftFunc (s : string) (f : rune → bool) : string :=
  trimLeftRunes f (rangeString s).

(** [lastIndexFunc(s, f, false)]: the index of the last rune, decoded
    backwards, that does not satisfy [f]; [-1] when there is none. *)
Fixpoint lastIndexFuncLoop (fuel : nat) (s : string) (f : rune → bool)
    (i : nat) : Z :=
  match fuel with
  | O => -1
  | S fuel' =>
    if (i =? 0)%nat then -1 else
    let '(r, size) := utf8_DecodeLastRuneInString (sliceTo i s) in
    let i := (i - size)%nat in
    if negb (f r) then Z.of_nat i else lastIndexFuncLoop fuel' s f i
  end.

(** [strings.TrimRightFunc]. *)
Definition strings_TrimRightFunc (s : string) (f : rune → bool) : string :=
  let i := lastIndexFuncLoop (String.length s) s f (String.length s) in
  let i :=
    if (0 <=? i) && (utf8_RuneSelf <=? rune_of_byte (byteAt s (Z.to_nat i)))
    then i + Z.of_nat (snd (utf8_DecodeRuneInString (sliceFrom (Z.to_nat i) s)))
    else i + 1 in
  sliceTo (Z.to_nat i) s.

(** [strings.TrimSpace]: leading and trailing white space, as defined by
    Unicode, removed.  The Go function first skips ASCII white space at
    both ends without decoding, which gives the same string. *)
Definition strings_TrimSpace (s : string) : string :=
  strings_TrimRightFunc (strings_TrimLeftFunc s unicode_IsSpace) unicode_IsSpace.

(** [strings.Compare]: lexicographic comparison of the bytes. *)
Definition strings_Compare (a b : string) : Z :=
  match String.compare a b with
  | Lt => -1
  | Eq => 0
  | Gt => 1
  end.

(** ** Package [html] *)

Definition escapeByte (c : Ascii.ascii) : string :=
  if Ascii.eqb c "&" then "&amp;"
  else if Ascii.eqb c "'" then "&#39;"
  else if Ascii.eqb c "<" then "&lt;"
  else if Ascii.eqb c ">" then "&gt;"
  else if Ascii.eqb c "034" then "&#34;"
  else String c EmptyString.

(** [html.EscapeString]. *)
Fixpoint html_EscapeString (s : string) : string :=
  match s with
  | EmptyString => EmptyString
  | String c t => escapeByte c +:+ html_EscapeString t
  end.

(** ** Package [slices] *)

(** The order that a three-way comparison function defines: [a] may come
    before [b] when [cmp a b <= 0]. *)
Definition cmp_le {A} (cmp : A → A → Z) : relation A := λ a b, cmp a b <= 0.

#[global] Instance cmp_le_dec {A} (cmp : A → A → Z) : RelDecision (cmp_le cmp).
Proof. intros a b. unfold cmp_le. apply _. Defined.

(** [slices.SortFunc]: the slice in ascending order of [cmp].  The Go sort
    is not stable; on a slice whose elements are pairwise different for
    [cmp], as the keys of a map are, every sort gives the same result
    (lemma [sorted_enumeration_unique] below). *)
Definition slices_SortFunc {A} (x : list A) (cmp : A → A → Z) : list A :=
  merge_sort (cmp_le cmp) x.

(** ** Errors

    The values of Go's [error] that a render call can return: the three
    errors that [renderAttrs] creates with [fmt.Errorf], and errors created
    outside the package, such as the one an [io.Writer] returns. *)
Inductive error :=
| EmptyAttributeKey
| NilAttributeValue (k : string)
| InvalidAttributeType (typ k : string)
| ForeignError (msg : string).

(** [err.Error()]: the message of each error. *)
Definition error_Error (e : error) : string :=
  match e with
  | EmptyAttributeKey => "empty/whitespace attribute key not allowed."
  | NilAttributeValue k => "attribute '" +:+ k +:+ "' has nil value"
  | InvalidAttributeType typ k =>
      "attribute value must be string or bool, got " +:+ typ
      +:+ " for key '" +:+ k +:+ "'"
  | ForeignError msg => msg
  end.

(** ** html.go: text nodes *)

(** [type Text string]. *)
Definition Text := string.

(** [func (me Text) Render() (string, error)]. *)
Definition Text_Render (me : Text) : string * option error :=
  let s := me in
  if String.eqb s "" then ("", None) else
  let startsWithSpace := unicode_IsSpace (rune_of_byte (byteAt s 0)) in
  let endsWithSpace :=
    (1 <? String.length s)%nat
    && unicode_IsSpace (rune_of_byte (byteAt s (String.length s - 1))) in
  let s := strings_Join (strings_FieldsFunc s unicode_IsSpace) " " in
  (* re-apply at most one space at each edge *)
  let s := if startsWithSpace then " " +:+ s else s in
  let s := if endsWithSpace then s +:+ " " else s in
  (html_EscapeString s, None).

(** ** html.go: elements *)

(** A value of Go's [any] as [renderAttrs] tells them apart: the nil
    interface, a string, a bool, or a value of any other dynamic type,
    of which only the name that [%T] prints matters. *)
Inductive any :=
| anyNil
| anyString (v : string)
| anyBool (v : bool)
| anyOther (typ : string).

(** [type KV map[string]any]. *)
Abbreviation KV := (gmap string any).

(** [type Node interface { Render() (string, error) }], with its two
    implementations, and [type Element struct]. *)
Inductive Node : Type :=
| NodeText (t : Text)
| NodeElement (e : Element)
with Element : Type :=
| mkElement (Tag : string) (IsVoid : bool) (Attrs : KV) (Children : list Node).

Definition Tag (me : Element) : string := let 'mkElement t _ _ _ := me in t.
Definition IsVoid (me : Element) : bool := let 'mkElement _ v _ _ := me in v.
Definition Attrs (me : Element) : KV := let 'mkElement _ _ a _ := me in a.
Definition Children (me : Element) : list Node :=
  let 'mkElement _ _ _ c := me in c.

(** The local [type kv struct {key string; value any}] of [renderAttrs]. *)
Abbreviation kv := (string * any)%type.

(** The comparison function handed to [slices.SortFunc]. *)
Definition kv_cmp (a b : kv) : Z := strings_Compare a.1 b.1.

(** The second loop of [renderAttrs], over the sorted slice.  The builder
    is threaded through: on an error it holds what was written so far. *)
Fixpoint renderAttrsLoop (attrSlice : list kv) (builder : string)
    : string * option error :=
  match attrSlice with
  | [] => (builder, None)
  | attr :: rest =>
    let k := strings_TrimSpace attr.1 in
    if String.eqb k "" then (builder, Some EmptyAttributeKey) else
    match attr.2 with
    | anyNil => (builder, Some (NilAttributeValue k))
    | anyString v =>
        renderAttrsLoop rest
          (builder +:+ " " +:+ k +:+ "=" +:+ dquote +:+ html_EscapeString v
                   +:+ dquote)
    | anyBool v =>
        renderAttrsLoop rest (if v then builder +:+ " " +:+ k else builder)
    | anyOther typ => (builder, Some (InvalidAttributeType typ k))
    end
  end.

(** [renderAttrs] from the slice that the first loop,
    [for key, value := range me.Attrs], has filled: Go leaves the order of
    that iteration open, so [attrSlice] is any enumeration of the map. *)
Definition renderAttrsFrom (attrSlice : list kv) (builder : string)
    : string * option error :=
  let attrSlice := slices_SortFunc attrSlice kv_cmp in
  renderAttrsLoop attrSlice builder.

(** [func (me Element) renderAttrs(builder *strings.Builder) error]. *)
Definition Element_renderAttrs (me : Element) (builder : string)
    : string * option error :=
  renderAttrsFrom (map_to_list (Attrs me)) builder.

(** The loop of [renderChildren], over the [Render] method of the nodes. *)
Fixpoint renderChildrenLoop (render : Node → string * option error)
    (children : list Node) (builder : string) : string * option error :=
  match children with
  | [] => (builder, None)
  | child :: rest =>
    match render child with
    | (_, Some err) => (builder, Some err)
    | (s, None) => renderChildrenLoop render rest (builder +:+ s)
    end
  end.

(** [node.Render()] by dynamic dispatch, and
    [func (me *Element) Render() (string, error)]. *)
Fixpoint Node_Render (node : Node) : string * option error :=
  match node with
  | NodeText t => Text_Render t
  | NodeElement e => Element_Render e
  end
with Element_Render (me : Element) : string * option error :=
  let builder := "" in
  if String.eqb (Tag me) "" then (* empty tag *)
    match renderChildrenLoop Node_Render (Children me) builder with
    | (_, Some err) => ("", Some err)
    | (builder, None) => (builder, None)
    end
  else
    let builder := builder +:+ "<" in
    let builder := builder +:+ Tag me in
    match Element_renderAttrs me builder with
    | (_, Some err) => ("", Some err)
    | (builder, None) =>
      let builder := builder +:+ ">" in
      if IsVoid me then (builder, None) else
      match renderChildrenLoop Node_Render (Children me) builder with
      | (_, Some err) => ("", None)
      | (builder, None) =>
        let builder := builder +:+ "</" +:+ Tag me +:+ ">" in
        (builder, None)
      end
    end.

(** [func (me Element) renderChildren(builder *strings.Builder) error]. *)
Definition Element_renderChildren (me : Element) (builder : string)
    : string * option error :=
  renderChildrenLoop Node_Render (Children me) builder.

(** [func (me *Element) Add(children ...Node) Node]: the element after the
    call, and the node returned, which is the receiver itself. *)
Definition Element_Add (me : Element) (children : list Node) : Element * Node :=
  let me :=
    if negb (IsVoid me)
    then mkElement (Tag me) (IsVoid me) (Attrs me) (Children me ++ children)
    else me in
  (me, NodeElement me).

(** [func newElement(tag string, attrs []KV, isVoid ...bool) *Element]. *)
Definition newElement (tag : string) (attrs : list KV) (isVoid : list bool)
    : Element :=
  let e := mkElement tag false ∅ [] in
  let e :=
    match attrs with
    | a0 :: _ => mkElement (Tag e) (IsVoid e) a0 (Children e)
    | [] => e
    end in
  match isVoid with
  | v0 :: _ => mkElement (Tag e) v0 (Attrs e) (Children e)
  | [] => e
  end.

(** Some of the factories of html.go. *)
Definition Empty (attrs : list KV) : Element := newElement "" attrs [].
Definition Div (attrs : list KV) : Element := newElement "div" attrs [].
Definition P (attrs : list KV) : Element := newElement "p" attrs [].
Definition Br : Element := newElement "br" [] [true].
Definition Img (attrs : list KV) : Element := newElement "img" attrs [true].

(** ** render.go: the entry point *)

Section Writer.
(** An [io.Writer]: its state and its [Write] method, which returns the
    new state, the number of bytes written and an error or nil. *)
Context {W : Type} (Write : W → string → W * (nat * option error)).

(** [func Render(writer io.Writer, node Node) error]. *)
Definition Render (writer : W) (node : Node) : W * option error :=
  match Node_Render node with
  | (_, Some err) => (writer, Some err)
  | (s, None) =>
    let '(writer, (_, err)) := Write writer s in
    (writer, err)
  end.
End Writer.

(** A [bytes.Buffer]: [Write] appends and never fails. *)
Definition Buffer_Write (buf : string) (p : string) : string * (nat * option error) :=
  (buf +:+ p, (String.length p, None)).

(** The [errorWriter] of render_test.go: [Write] always fails. *)
Definition errorWriter_Write (w : unit) (p : string) : unit * (nat * option error) :=
  (w, (0%nat, Some (ForeignError "write error"))).

(** ** Definitions that follow the words of the specification *)

(** A rune of the decoded string is white space. *)
Definition isSpaceRune (c : rune * string) : bool := unicode_IsSpace c.1.

(** The single ASCII space that stands for a run of white space. *)
Definition spaceRune : rune * string := (0x20, " ").

(** "Collapse every maximal run of whitespace anywhere in the string to a
    single ASCII space": a white-space rune followed by another one is
    dropped, the last one of a run becomes the space. *)
Fixpoint collapseRuns (rs : list (rune * string)) : list (rune * string) :=
  match rs with
  | [] => []
  | c :: rest =>
    if isSpaceRune c then
      match rest with
      | c' :: _ => if isSpaceRune c' then collapseRuns rest
                   else spaceRune :: collapseRuns rest
      | [] => [spaceRune]
      end
    else c :: collapseRuns rest
  end.

(** "and trim leading/trailing whitespace from this collapsed form". *)
Fixpoint trimLeading (rs : list (rune * string)) : list (rune * string) :=
  match rs with
  | [] => []
  | c :: rest => if isSpaceRune c then trimLeading rest else rs
  end.

Fixpoint trimTrailing (rs : list (rune * string)) : list (rune * string) :=
  match rs with
  | [] => []
  | c :: rest =>
    match trimTrailing rest with
    | [] => if isSpaceRune c then [] else [c]
    | rest' => c :: rest'
    end
  end.

(** Step 3 of the text algorithm of the specification. *)
Definition collapseWhitespace (s : string) : string :=
  runeBytes (trimTrailing (trimLeading (collapseRuns (rangeString s)))).

(** The markup of one valid attribute: nothing for [false], the bare name
    for [true], [name="escaped-value"] for a string; the name is the
    trimmed key. *)
Definition attrMarkup (a : kv) : string :=
  let name := strings_TrimSpace a.1 in
  match a.2 with
  | anyBool false => ""
  | anyBool true => " " +:+ name
  | anyString v => " " +:+ name +:+ "=" +:+ dquote +:+ html_EscapeString v +:+ dquote
  | _ => ""
  end.

(** An attribute passes validation: the trimmed key is not empty and the
    value is a string or a bool. *)
Definition validAttr (a : kv) : Prop :=
  strings_TrimSpace a.1 ≠ "" ∧
  ((∃ v, a.2 = anyString v) ∨ (∃ v, a.2 = anyBool v)).

(** Concatenation of a list of strings. *)
Fixpoint concatStrings (l : list string) : string :=
  match l with
  | [] => ""
  | x :: rest => x +:+ concatStrings rest
  end.


Definition invalidAttr (a : kv) : Prop :=
  strings_TrimSpace a.1 = "" ∨ a.2 = anyNil ∨ ∃ typ, a.2 = anyOther typ.

#[global] Instance validAttr_dec (a : kv) : Decision (validAttr a).
Proof.
  unfold validAttr. destruct a as [k [|v|v|t]]; cbn [fst snd].
  - right. intros [_ [[? ?]|[? ?]]]; done.
  - destruct (decide (strings_TrimSpace k = "")) as [He|Hne];
      [right; by intros [? _]|left; split; [done|left; eauto]].
  - destruct (decide (strings_TrimSpace k = "")) as [He|Hne];
      [right; by intros [? _]|left; split; [done|right; eauto]].
  - right. intros [_ [[? ?]|[? ?]]]; done.
Defined.

(** Every attribute of the map passes validation. *)
Definition validAttrs (attrs : KV) : Prop :=
  map_Forall (λ k v, validAttr (k, v)) attrs.

#[global] Instance validAttrs_dec (attrs : KV) : Decision (validAttrs attrs).
Proof. unfold validAttrs. apply map_Forall_dec. intros k v. apply _. Defined.

(** The loop fails at the first invalid attribute of the slice. *)
Definition attrError (a : kv) : error :=
  let k := strings_TrimSpace a.1 in
  if String.eqb k "" then EmptyAttributeKey else
  match a.2 with
  | anyNil => NilAttributeValue k
  | anyOther typ => InvalidAttributeType typ k
  | _ => EmptyAttributeKey
  end.

(** The opening tag of an element with valid attributes. *)
Definition openingTag (me : Element) : string :=
  "<" +:+ Tag me
  +:+ concatStrings
        (attrMarkup <$> slices_SortFunc (map_to_list (Attrs me)) kv_cmp)
  +:+ ">".

(** After a separator: a space and the remaining fields, or nothing. *)
Definition sepJoin (l : list string) : string :=
  match l with
  | [] => ""
  | _ => " " +:+ strings_Join l " "
  end.

(** The boundary spaces of [Text.Render], as the code decides them: from
    the first and the last byte of the string. *)
Definition leadingSpace (s : string) : string :=
  if unicode_IsSpace (rune_of_byte (byteAt s 0)) then " " else "".

Definition trailingSpace (s : string) : string :=
  if (1 <? String.length s)%nat
     && unicode_IsSpace (rune_of_byte (byteAt s (String.length s - 1)))
  then " " else "".

(** Some strings with bytes above 127: U+2003 EM SPACE and U+00E0, in UTF-8. *)
Definition emSpace : string := String "226" (String "128" (String "131" "")).
Definition aGrave : string := String "195" (String "160" "").

(** ** html.go: the factories

    Every factory of html.go, under its name; [Hr] and [Br] take no
    attributes and pass [nil]. *)
Module Tags.
Definition Empty (attrs : list KV) : Element := newElement "" attrs [].
Definition Html (attrs : list KV) : Element := newElement "html" attrs [].
Definition Head (attrs : list KV) : Element := newElement "head" attrs [].
Definition Title (attrs : list KV) : Element := newElement "title" attrs [].
Definition Link (attrs : list KV) : Element := newElement "link" attrs [true].
Definition Meta (attrs : list KV) : Element := newElement "meta" attrs [true].
Definition Style (attrs : list KV) : Element := newElement "style" attrs [].
Definition Body (attrs : list KV) : Element := newElement "body" attrs [].
Definition H1 (attrs : list KV) : Element := newElement "h1" attrs [].
Definition H2 (attrs : list KV) : Element := newElement "h2" attrs [].
Definition H3 (attrs : list KV) : Element := newElement "h3" attrs [].
Definition H4 (attrs : list KV) : Element := newElement "h4" attrs [].
Definition H5 (attrs : list KV) : Element := newElement "h5" attrs [].
Definition H6 (attrs : list KV) : Element := newElement "h6" attrs [].
Definition Header (attrs : list KV) : Element := newElement "header" attrs [].
Definition Footer (attrs : list KV) : Element := newElement "footer" attrs [].
Definition Nav (attrs : list KV) : Element := newElement "nav" attrs [].
Definition Main (attrs : list KV) : Element := newElement "main" attrs [].
Definition Section (attrs : list KV) : Element := newElement "section" attrs [].
Definition Article (attrs : list KV) : Element := newElement "article" attrs [].
Definition Aside (attrs : list KV) : Element := newElement "aside" attrs [].
Definition Hr : Element := newElement "hr" [] [true].
Definition Pre (attrs : list KV) : Element := newElement "pre" attrs [].
Definition Blockquote (attrs : list KV) : Element := newElement "blockquote" attrs [].
Definition Ol (attrs : list KV) : Element := newElement "ol" attrs [].
Definition Ul (attrs : list KV) : Element := newElement "ul" attrs [].
Definition Li (attrs : list KV) : Element := newElement "li" attrs [].
Definition A (attrs : list KV) : Element := newElement "a" attrs [].
Definition Em (attrs : list KV) : Element := newElement "em" attrs [].
Definition Strong (attrs : list KV) : Element := newElement "strong" attrs [].
Definition Code (attrs : list KV) : Element := newElement "code" attrs [].
Definition Var (attrs : list KV) : Element := newElement "var" attrs [].
Definition Samp (attrs : list KV) : Element := newElement "samp" attrs [].
Definition Kbd (attrs : list KV) : Element := newElement "kbd" attrs [].
Definition Sub (attrs : list KV) : Element := newElement "sub" attrs [].
Definition Sup (attrs : list KV) : Element := newElement "sup" attrs [].
Definition I (attrs : list KV) : Element := newElement "i" attrs [].
Definition B (attrs : list KV) : Element := newElement "b" attrs [].
Definition U (attrs : list KV) : Element := newElement "u" attrs [].
Definition Mark (attrs : list KV) : Element := newElement "mark" attrs [].
Definition Bdi (attrs : list KV) : Element := newElement "bdi" attrs [].
Definition Bdo (attrs : list KV) : Element := newElement "bdo" attrs [].
Definition Br : Element := newElement "br" [] [true].
Definition Wbr (attrs : list KV) : Element := newElement "wbr" attrs [true].
Definition Img (attrs : list KV) : Element := newElement "img" attrs [true].
Definition Iframe (attrs : list KV) : Element := newElement "iframe" attrs [].
Definition Embed (attrs : list KV) : Element := newElement "embed" attrs [true].
Definition Object (attrs : list KV) : Element := newElement "object" attrs [].
Definition Picture (attrs : list KV) : Element := newElement "picture" attrs [].
Definition Source (attrs : list KV) : Element := newElement "source" attrs [true].
Definition Track (attrs : list KV) : Element := newElement "track" attrs [true].
Definition Video (attrs : list KV) : Element := newElement "video" attrs [].
Definition Audio (attrs : list KV) : Element := newElement "audio" attrs [].
Definition Canvas (attrs : list KV) : Element := newElement "canvas" attrs [].
Definition MapElement (attrs : list KV) : Element := newElement "map" attrs [].
Definition Area (attrs : list KV) : Element := newElement "area" attrs [true].
Definition Svg (attrs : list KV) : Element := newElement "svg" attrs [].
Definition Math (attrs : list KV) : Element := newElement "math" attrs [].
Definition Script (attrs : list KV) : Element := newElement "script" attrs [].
Definition Noscript (attrs : list KV) : Element := newElement "noscript" attrs [].
Definition Del (attrs : list KV) : Element := newElement "del" attrs [].
Definition Ins (attrs : list KV) : Element := newElement "ins" attrs [].
Definition Table (attrs : list KV) : Element := newElement "table" attrs [].
Definition Caption (attrs : list KV) : Element := newElement "caption" attrs [].
Definition Colgroup (attrs : list KV) : Element := newElement "colgroup" attrs [].
Definition Col (attrs : list KV) : Element := newElement "col" attrs [true].
Definition Thead (attrs : list KV) : Element := newElement "thead" attrs [].
Definition Tbody (attrs : list KV) : Element := newElement "tbody" attrs [].
Definition Tfoot (attrs : list KV) : Element := newElement "tfoot" attrs [].
Definition Tr (attrs : list KV) : Element := newElement "tr" attrs [].
Definition Th (attrs : list KV) : Element := newElement "th" attrs [].
Definition Td (attrs : list KV) : Element := newElement "td" attrs [].
Definition Form (attrs : list KV) : Element := newElement "form" attrs [].
Definition Fieldset (attrs : list KV) : Element := newElement "fieldset" attrs [].
Definition Legend (attrs : list KV) : Element := newElement "legend" attrs [].
Definition Label (attrs : list KV) : Element := newElement "label" attrs [].
Definition Input (attrs : list KV) : Element := newElement "input" attrs [true].
Definition Button (attrs : list KV) : Element := newElement "button" attrs [].
Definition Select (attrs : list KV) : Element := newElement "select" attrs [].
Definition Datalist (attrs : list KV) : Element := newElement "datalist" attrs [].
Definition Optgroup (attrs : list KV) : Element := newElement "optgroup" attrs [].
Definition Option (attrs : list KV) : Element := newElement "option" attrs [].
Definition Textarea (attrs : list KV) : Element := newElement "textarea" attrs [].
Definition Output (attrs : list KV) : Element := newElement "output" attrs [].
Definition Progress (attrs : list KV) : Element := newElement "progress" attrs [].
Definition Meter (attrs : list KV) : Element := newElement "meter" attrs [].
Definition Details (attrs : list KV) : Element := newElement "details" attrs [].
Definition Summary (attrs : list KV) : Element := newElement "summary" attrs [].
Definition Dialog (attrs : list KV) : Element := newElement "dialog" attrs [].
Definition Slot (attrs : list KV) : Element := newElement "slot" attrs [].
Definition Template (attrs : list KV) : Element := newElement "template" attrs [].
Definition Fencedframe (attrs : list KV) : Element := newElement "fencedframe" attrs [].
Definition Selectedcontent (attrs : list KV) : Element :=
  newElement "selectedcontent" attrs [].
Definition Base (attrs : list KV) : Element := newElement "base" attrs [true].
Definition Hgroup (attrs : list KV) : Element := newElement "hgroup" attrs [].
Definition Address (attrs : list KV) : Element := newElement "address" attrs [].
Definition Search (attrs : list KV) : Element := newElement "search" attrs [].
Definition Div (attrs : list KV) : Element := newElement "div" attrs [].
Definition Span (attrs : list KV) : Element := newElement "span" attrs [].
Definition P (attrs : list KV) : Element := newElement "p" attrs [].
Definition Dl (attrs : list KV) : Element := newElement "dl" attrs [].
Definition Dt (attrs : list KV) : Element := newElement "dt" attrs [].
Definition Dd (attrs : list KV) : Element := newElement "dd" attrs [].
Definition Figure (attrs : list KV) : Element := newElement "figure" attrs [].
Definition Figcaption (attrs : list KV) : Element := newElement "figcaption" attrs [].
Definition Menu (attrs : list KV) : Element := newElement "menu" attrs [].
Definition Small (attrs : list KV) : Element := newElement "small" attrs [].
Definition S (attrs : list KV) : Element := newElement "s" attrs [].
Definition Cite (attrs : list KV) : Element := newElement "cite" attrs [].
Definition Q (attrs : list KV) : Element := newElement "q" attrs [].
Definition Dfn (attrs : list KV) : Element := newElement "dfn" attrs [].
Definition Abbr (attrs : list KV) : Element := newElement "abbr" attrs [].
Definition Ruby (attrs : list KV) : Element := newElement "ruby" attrs [].
Definition Rt (attrs : list KV) : Element := newElement "rt" attrs [].
Definition Rp (attrs : list KV) : Element := newElement "rp" attrs [].
Definition Data (attrs : list KV) : Element := newElement "data" attrs [].
Definition Time (attrs : list KV) : Element := newElement "time" attrs [].
End Tags.

(** The factories that give a tag, that is all but [Empty], in the order
    of html.go. *)
Definition tagFactories : list (list KV → Element) :=
  [Tags.Html; Tags.Head; Tags.Title; Tags.Link; Tags.Meta; Tags.Style;
   Tags.Body; Tags.H1; Tags.H2; Tags.H3; Tags.H4; Tags.H5; Tags.H6;
   Tags.Header; Tags.Footer; Tags.Nav; Tags.Main; Tags.Section; Tags.Article;
   Tags.Aside; (λ _, Tags.Hr); Tags.Pre; Tags.Blockquote; Tags.Ol; Tags.Ul;
   Tags.Li; Tags.A; Tags.Em; Tags.Strong; Tags.Code; Tags.Var; Tags.Samp;
   Tags.Kbd; Tags.Sub; Tags.Sup; Tags.I; Tags.B; Tags.U; Tags.Mark; Tags.Bdi;
   Tags.Bdo; (λ _, Tags.Br); Tags.Wbr; Tags.Img; Tags.Iframe; Tags.Embed;
   Tags.Object; Tags.Picture; Tags.Source; Tags.Track; Tags.Video;
   Tags.Audio; Tags.Canvas; Tags.MapElement; Tags.Area; Tags.Svg; Tags.Math;
   Tags.Script; Tags.Noscript; Tags.Del; Tags.Ins; Tags.Table; Tags.Caption;
   Tags.Colgroup; Tags.Col; Tags.Thead; Tags.Tbody; Tags.Tfoot; Tags.Tr;
   Tags.Th; Tags.Td; Tags.Form; Tags.Fieldset; Tags.Legend; Tags.Label;
   Tags.Input; Tags.Button; Tags.Select; Tags.Datalist; Tags.Optgroup;
   Tags.Option; Tags.Textarea; Tags.Output; Tags.Progress; Tags.Meter;
   Tags.Details; Tags.Summary; Tags.Dialog; Tags.Slot; Tags.Template;
   Tags.Fencedframe; Tags.Selectedcontent; Tags.Base; Tags.Hgroup;
   Tags.Address; Tags.Search; Tags.Div; Tags.Span; Tags.P; Tags.Dl; Tags.Dt;
   Tags.Dd; Tags.Figure; Tags.Figcaption; Tags.Menu; Tags.Small; Tags.S;
   Tags.Cite; Tags.Q; Tags.Dfn; Tags.Abbr; Tags.Ruby; Tags.Rt; Tags.Rp;
   Tags.Data; Tags.Time].

(** The tags that html.go builds with the void flag. *)
Definition voidTags : list string :=
  ["area"; "base"; "br"; "col"; "embed"; "hr"; "img"; "input"; "link";
   "meta"; "source"; "track"; "wbr"].

(** ** utils: conditional and repeated nodes

    The helpers of package [utils].  A [func() g.Node] may keep state
    between its calls: it is a function from a state to the next state and
    the node; the [func(T) g.Node] handed to [Map] is taken without side
    effects. *)
Module utils.
(** [func IfElse[T any](condition bool, result, alternative T) T]. *)
Definition IfElse {T : Type} (condition : bool) (result alternative : T) : T :=
  if condition then result else alternative.

(** [func If(condition bool, result g.Node) g.Node]. *)
Definition If (condition : bool) (result : Node) : Node :=
  if condition then result else NodeElement (Empty []).



(** The loop [for _, item := range input] of [Map]. *)
Fixpoint MapLoop {T : Type} (input : list T) (f : T → Node) (result : Element)
    : Element :=
  match input with
  | [] => result
  | item :: rest =>
    MapLoop rest f
      (mkElement (Tag result) (IsVoid result) (Attrs result)
         (Children result ++ [f item]))
  end.

(** [func Map[T any](input []T, f func(T) g.Node) g.Node]. *)
Definition Map {T : Type} (input : list T) (f : T → Node) : Node :=
  let result := Empty [] in
  NodeElement (MapLoop input f result).
End utils.

(** ** Whole trees *)

(** The markup of a tree, by structure: the escaped text of a text node,
    the markup of the children of a wrapper one after the other, the
    opening tag of a void element, and the opening tag, the markup of the
    children and the closing tag of any other element. *)
Fixpoint Node_markup (node : Node) : string :=
  match node with
  | NodeText t => (Text_Render t).1
  | NodeElement e => Element_markup e
  end
with Element_markup (me : Element) : string :=
  let inner := concatStrings (Node_markup <$> Children me) in
  if String.eqb (Tag me) "" then inner
  else if IsVoid me then openingTag me
  else openingTag me +:+ inner +:+ "</" +:+ Tag me +:+ ">".

(** Every element of the tree that has a tag has valid attributes. *)
Fixpoint Node_wellFormed (node : Node) : bool :=
  match node with
  | NodeText _ => true
  | NodeElement e => Element_wellFormed e
  end
with Element_wellFormed (me : Element) : bool :=
  (String.eqb (Tag me) "" || bool_decide (validAttrs (Attrs me)))
  && forallb Node_wellFormed (Children me).

(** The bytes of a string. *)
Fixpoint bytesOf (s : string) : list ascii :=
  match s with
  | EmptyString => []
  | String c t => c :: bytesOf t
  end.

(** A byte that [html.EscapeString] replaces. *)
Definition isSpecialByte (c : ascii) : bool :=
  Ascii.eqb c "&" || Ascii.eqb c "'" || Ascii.eqb c "<" || Ascii.eqb c ">"
  || Ascii.eqb c "034".

(** A byte is ASCII white space. *)
Definition isSpaceByte (c : ascii) : bool := unicode_IsSpace (rune_of_byte c).

(** Text in single-spaced ASCII: every byte is below 128, white space is
    the space character only, and no space stands first, last or next to
    another space.  [prev] tells that a space may not come next. *)
Fixpoint singleSpacedFrom (prev : bool) (s : string) : bool :=
  match s with
  | EmptyString => negb prev
  | String c t =>
    (rune_of_byte c <? utf8_RuneSelf)
    && (if isSpaceByte c then negb prev && Ascii.eqb c " " && singleSpacedFrom true t
        else singleSpacedFrom false t)
  end.

Definition singleSpaced (s : string) : bool := singleSpacedFrom true s.

(** Every byte of the string is below 128. *)
Definition isASCII (s : string) : bool :=
  forallb (λ c, rune_of_byte c <? utf8_RuneSelf) (bytesOf s).

(** Every byte of the string is ASCII white space. *)
Definition isBlankASCII (s : string) : bool :=
  forallb (λ c, (rune_of_byte c <? utf8_RuneSelf) && isSpaceByte c) (bytesOf s).

(** The first, and the last, code point of the string is white space. *)
Definition startsWithSpaceRune (s : string) : bool :=
  from_option isSpaceRune false (head (rangeString s)).

Definition endsWithSpaceRune (s : string) : bool :=
  from_option isSpaceRune false (last (rangeString s)).

(** "then at most one boundary space restored per side": on a side there
    is nothing, or one space where the string had white space on that
    side. *)
Definition restoredSpace (hadSpace : bool) (sp : string) : Prop :=
  sp = "" ∨ (sp = " " ∧ hadSpace = true).

(** The result that the specification gives for a text: the escaped form
    of the collapsed and trimmed string between its restored boundary
    spaces. *)
Definition restoredText (s out : string) : Prop :=
  ∃ lead trail,
    restoredSpace (startsWithSpaceRune s) lead
    ∧ restoredSpace (endsWithSpaceRune s) trail
    ∧ out = html_EscapeString (lead +:+ collapseWhitespace s +:+ trail).

(** ** Strings *)

Lemma append_cons (c : ascii) (s t : string) :
  String c s +:+ t = String c (s +:+ t).
Proof. reflexivity. Qed.

Lemma append_nil_l (s : string) : "" +:+ s = s.
Proof. reflexivity. Qed.

Lemma append_nil_r (s : string) : s +:+ "" = s.
Proof. induction s as [|c s IH]; [done|]. by rewrite append_cons, IH. Qed.

Lemma append_assoc (s1 s2 s3 : string) : (s1 +:+ s2) +:+ s3 = s1 +:+ (s2 +:+ s3).
Proof. induction s1 as [|c s1 IH]; [done|]. by rewrite !append_cons, IH. Qed.

Lemma html_EscapeString_app (s1 s2 : string) :
  html_EscapeString (s1 +:+ s2) = html_EscapeString s1 +:+ html_EscapeString s2.
Proof.
  induction s1 as [|c s1 IH]; [done|].
  rewrite append_cons. cbn [html_EscapeString]. by rewrite IH, append_assoc.
Qed.




(** ** Decoding: the runes of a string hold its bytes *)



(** ** Decoding backwards: the loop of [lastIndexFunc] terminates *)

Lemma scanRuneStart_le (fuel : nat) (s : string) (start lim : Z) :
  scanRuneStart fuel s start lim <= start.
Proof.
  revert start. induction fuel as [|fuel IH]; intros start; cbn [scanRuneStart].
  { lia. }
  destruct (start <? lim); [lia|].
  destruct (utf8_RuneStart _); [lia|].
  specialize (IH (start - 1)). lia.
Qed.

(** A rune decoded from the end of a non-empty string has a width. *)
Lemma utf8_DecodeLastRuneInString_width (s : string) :
  s ≠ "" → (1 ≤ (utf8_DecodeLastRuneInString s).2)%nat.
Proof.
  intros Hs. unfold utf8_DecodeLastRuneInString.
  assert (String.length s ≠ 0%nat) as Hlen by (by destruct s).
  destruct (String.length s =? 0)%nat eqn:H0; [by apply Nat.eqb_eq in H0|].
  cbv zeta. destruct (_ <? utf8_RuneSelf); [done|].
  pose proof (scanRuneStart_le utf8_UTFMax s
                (Z.of_nat (String.length s - 1) - 1)
                (Z.max (Z.of_nat (String.length s) - Z.of_nat utf8_UTFMax) 0))
    as Hscan.
  set (scan := scanRuneStart _ _ _ _) in *.
  destruct (utf8_DecodeRuneInString _) as [r size].
  destruct (_ =? Z.of_nat (String.length s)) eqn:Hend; cbn [negb snd]; [|done].
  apply Z.eqb_eq in Hend. destruct (scan <? 0) eqn:Hneg; lia.
Qed.

Lemma length_sliceTo (j : nat) (s : string) :
  String.length (sliceTo j s) = (j `min` String.length s)%nat.
Proof.
  revert s. induction j as [|j IH]; intros [|c s]; try done.
  cbn [sliceTo String.length]. by rewrite IH.
Qed.

(** With as much fuel as the position, the loop of [lastIndexFunc] comes to
    its end: more fuel does not change the result. *)
Lemma lastIndexFuncLoop_fuel (fuel fuel' : nat) (s : string) (f : rune → bool)
    (i : nat) :
  (i ≤ String.length s)%nat → (i ≤ fuel)%nat → (i ≤ fuel')%nat →
  lastIndexFuncLoop fuel s f i = lastIndexFuncLoop fuel' s f i.
Proof.
  revert fuel' i. induction fuel as [|fuel IH]; intros fuel' i Hi Hf Hf'.
  { assert (i = 0%nat) as -> by lia. by destruct fuel'. }
  destruct fuel' as [|fuel'].
  { assert (i = 0%nat) as -> by lia. done. }
  cbn [lastIndexFuncLoop]. destruct (i =? 0)%nat eqn:Hi0; [done|].
  apply Nat.eqb_neq in Hi0.
  pose proof (utf8_DecodeLastRuneInString_width (sliceTo i s)) as Hw.
  destruct (utf8_DecodeLastRuneInString (sliceTo i s)) as [r size].
  cbn [snd] in Hw.
  assert (1 ≤ size)%nat as Hsize.
  { apply Hw. intros Hempty. pose proof (length_sliceTo i s) as Hl.
    rewrite Hempty in Hl. simpl in Hl. lia. }
  destruct (negb (f r)); [done|]. apply IH; lia.
Qed.



(** ** Text nodes: the fields of a string and the collapsed form *)

Lemma fieldsLoop_in_word_nonempty rs w : fieldsLoop unicode_IsSpace rs (Some w) ≠ [].
Proof.
  revert w. induction rs as [|[r bs] rs IH]; intros w; simpl; [done|].
  destruct (unicode_IsSpace r); [done|apply IH].
Qed.

Lemma trimTrailing_cons_word c rs :
  isSpaceRune c = false → trimTrailing (c :: rs) = c :: trimTrailing rs.
Proof. intros Hc. simpl. rewrite Hc. by destruct (trimTrailing rs). Qed.

Lemma Join_cons w l : strings_Join (w :: l) " " = w +:+ sepJoin l.
Proof. destruct l; [|done]. unfold sepJoin. by rewrite append_nil_r. Qed.

Lemma collapseRuns_space_cons c c' rest :
  isSpaceRune c = true →
  collapseRuns (c :: c' :: rest)
  = if isSpaceRune c' then collapseRuns (c' :: rest)
    else spaceRune :: collapseRuns (c' :: rest).
Proof. intros Hc. cbn [collapseRuns]. by rewrite Hc. Qed.

Lemma collapseRuns_word_cons c rest :
  isSpaceRune c = false → collapseRuns (c :: rest) = c :: collapseRuns rest.
Proof. intros Hc. cbn [collapseRuns]. by rewrite Hc. Qed.

Lemma fieldsLoop_space r bs rs cur :
  unicode_IsSpace r = true →
  fieldsLoop unicode_IsSpace ((r, bs) :: rs) cur
  = match cur with
    | Some w => w :: fieldsLoop unicode_IsSpace rs None
    | None => fieldsLoop unicode_IsSpace rs None
    end.
Proof. intros Hr. cbn [fieldsLoop]. by rewrite Hr. Qed.

Lemma fieldsLoop_word r bs rs cur :
  unicode_IsSpace r = false →
  fieldsLoop unicode_IsSpace ((r, bs) :: rs) cur
  = fieldsLoop unicode_IsSpace rs
      (Some (match cur with Some w => w +:+ bs | None => bs end)).
Proof. intros Hr. cbn [fieldsLoop]. by rewrite Hr. Qed.

(** Reading on inside a word, and reading on after white space. *)
Lemma fieldsLoop_collapse rs :
  (∀ w, strings_Join (fieldsLoop unicode_IsSpace rs (Some w)) " "
        = w +:+ runeBytes (trimTrailing (collapseRuns rs)))
  ∧ (∀ c, isSpaceRune c = true →
        runeBytes (trimTrailing (collapseRuns (c :: rs)))
        = sepJoin (fieldsLoop unicode_IsSpace rs None))
  ∧ (∀ c, isSpaceRune c = true →
        runeBytes (trimTrailing (trimLeading (collapseRuns (c :: rs))))
        = strings_Join (fieldsLoop unicode_IsSpace rs None) " ").
Proof.
  induction rs as [|[r bs] rs (IHw & IHs & IHt)].
  - split_and!.
    + intros w. simpl. by rewrite append_nil_r.
    + intros c Hc. simpl. by rewrite Hc.
    + intros c Hc. simpl. by rewrite Hc.
  - destruct (unicode_IsSpace r) eqn:Hr.
    + assert (isSpaceRune (r, bs) = true) as Hr' by done.
      split_and!.
      * intros w. rewrite fieldsLoop_space, Join_cons by done.
        by rewrite (IHs _ Hr').
      * intros c Hc. rewrite collapseRuns_space_cons, Hr' by done.
        rewrite fieldsLoop_space by done. apply (IHs _ Hr').
      * intros c Hc. rewrite collapseRuns_space_cons, Hr' by done.
        rewrite fieldsLoop_space by done. apply (IHt _ Hr').
    + assert (isSpaceRune (r, bs) = false) as Hr' by done.
      split_and!.
      * intros w. rewrite fieldsLoop_word, IHw by done.
        rewrite collapseRuns_word_cons, trimTrailing_cons_word by done.
        cbn [runeBytes snd]. by rewrite append_assoc.
      * intros c Hc. rewrite collapseRuns_space_cons, Hr' by done.
        rewrite fieldsLoop_word, collapseRuns_word_cons by done.
        pose proof (fieldsLoop_in_word_nonempty rs bs) as Hne.
        destruct (fieldsLoop unicode_IsSpace rs (Some bs)) as [|w0 l0] eqn:Hfl; [done|].
        unfold sepJoin. rewrite <-Hfl, IHw.
        assert (trimTrailing (spaceRune :: (r, bs) :: collapseRuns rs)
                = spaceRune :: (r, bs) :: trimTrailing (collapseRuns rs)) as ->.
        { change (trimTrailing (spaceRune :: ?l))
            with (match trimTrailing l with
                  | [] => if isSpaceRune spaceRune then [] else [spaceRune]
                  | rest' => spaceRune :: rest' end).
          by rewrite trimTrailing_cons_word. }
        done.
      * intros c Hc. rewrite collapseRuns_space_cons, Hr' by done.
        rewrite fieldsLoop_word, collapseRuns_word_cons by done.
        assert (trimLeading (spaceRune :: (r, bs) :: collapseRuns rs)
                = (r, bs) :: collapseRuns rs) as ->.
        { cbn [trimLeading]. by rewrite Hr'. }
        rewrite trimTrailing_cons_word by done.
        cbn [runeBytes snd]. by rewrite IHw.
Qed.

(** Splitting on white-space runs and joining with one space is the
    collapsed and trimmed form. *)
Lemma Join_FieldsFunc_collapse (s : string) :
  strings_Join (strings_FieldsFunc s unicode_IsSpace) " " = collapseWhitespace s.
Proof.
  unfold strings_FieldsFunc, collapseWhitespace.
  destruct (rangeString s) as [|[r bs] rs]; [done|].
  destruct (fieldsLoop_collapse rs) as (IHw & _ & IHt).
  destruct (unicode_IsSpace r) eqn:Hr.
  - rewrite (IHt (r, bs)) by done. by rewrite fieldsLoop_space.
  - assert (isSpaceRune (r, bs) = false) as Hr' by done.
    rewrite fieldsLoop_word, collapseRuns_word_cons by done.
    cbn [trimLeading]. rewrite Hr'.
    rewrite trimTrailing_cons_word by done. apply IHw.
Qed.



(** ** Attributes: the order of the keys *)

Lemma strings_Compare_le (a b : string) :
  strings_Compare a b <= 0 ↔ String.le a b.
Proof.
  unfold strings_Compare, String.le, String.leb.
  destruct (String.compare a b); simpl; split; try done; lia.
Qed.

Lemma strings_Compare_eq (a b : string) : strings_Compare a b = 0 ↔ a = b.
Proof.
  unfold strings_Compare. split.
  - destruct (String.compare a b) eqn:Hc; try done.
    intros _. by apply String.compare_eq_iff.
  - intros ->. assert (String.compare b b = Eq) as ->; [|done].
    pose proof (String.compare_antisym b b) as H.
    destruct (String.compare b b); done.
Qed.

Lemma strings_Compare_lt (a b : string) :
  strings_Compare a b < 0 ↔ String.le a b ∧ a ≠ b.
Proof.
  rewrite <-strings_Compare_le, <-strings_Compare_eq. lia.
Qed.

#[global] Instance kv_le_trans : Transitive (cmp_le kv_cmp).
Proof.
  intros a b c. unfold cmp_le, kv_cmp. rewrite !strings_Compare_le.
  apply (transitivity (R := String.le)).
Qed.

#[global] Instance kv_le_total : Total (cmp_le kv_cmp).
Proof.
  intros a b. unfold cmp_le, kv_cmp. rewrite !strings_Compare_le.
  apply (total String.le).
Qed.

Lemma kv_le_antisym (a b : kv) :
  cmp_le kv_cmp a b → cmp_le kv_cmp b a → a.1 = b.1.
Proof.
  unfold cmp_le, kv_cmp. rewrite !strings_Compare_le.
  apply (anti_symm String.le).
Qed.

Lemma SortFunc_Permutation (l : list kv) : slices_SortFunc l kv_cmp ≡ₚ l.
Proof. apply merge_sort_Permutation. Qed.

Lemma SortFunc_Sorted (l : list kv) :
  StronglySorted (cmp_le kv_cmp) (slices_SortFunc l kv_cmp).
Proof. apply StronglySorted_merge_sort; apply _. Qed.

(** A map has one sorted enumeration: whatever the order of iteration and
    whatever the sorting algorithm, the sorted slice is the same. *)
Lemma sorted_enumeration_unique (m : KV) (l1 l2 : list kv) :
  l1 ≡ₚ map_to_list m → l2 ≡ₚ map_to_list m →
  StronglySorted (cmp_le kv_cmp) l1 → StronglySorted (cmp_le kv_cmp) l2 →
  l1 = l2.
Proof.
  intros H1 H2 S1 S2.
  apply (StronglySorted_unique_strong (cmp_le kv_cmp)); [|done..|by rewrite H1, H2].
  intros [k1 v1] [k2 v2] Hin1 Hin2 Hle Hge.
  pose proof (kv_le_antisym _ _ Hle Hge) as Hk. simpl in Hk. subst k2.
  rewrite H1 in Hin1. rewrite H2 in Hin2.
  apply elem_of_map_to_list in Hin1, Hin2. congruence.
Qed.

Lemma SortFunc_enumeration (m : KV) (order : list kv) :
  order ≡ₚ map_to_list m →
  slices_SortFunc order kv_cmp = slices_SortFunc (map_to_list m) kv_cmp.
Proof.
  intros Hp. apply (sorted_enumeration_unique m).
  - by rewrite SortFunc_Permutation.
  - apply SortFunc_Permutation.
  - apply SortFunc_Sorted.
  - apply SortFunc_Sorted.
Qed.

(** Sorted keys without duplicates increase strictly. *)
Lemma sorted_distinct_strict (l : list kv) :
  StronglySorted (cmp_le kv_cmp) l → NoDup l.*1 →
  StronglySorted (λ a b : kv, strings_Compare a.1 b.1 < 0) l.
Proof.
  induction 1 as [|a l HS IH Ha]; intros HN; [constructor|].
  rewrite fmap_cons in HN. apply NoDup_cons in HN as [Hnin HN].
  constructor; [by apply IH|].
  rewrite Forall_forall in Ha |- *. intros b Hb.
  apply strings_Compare_lt. split.
  - apply strings_Compare_le, (Ha b Hb).
  - intros Heq. apply Hnin. rewrite Heq. apply list_elem_of_fmap. eauto.
Qed.

(** The keys of the sorted slice of a map increase strictly. *)
Lemma SortFunc_strictly_ascending (m : KV) :
  StronglySorted (λ a b : kv, strings_Compare a.1 b.1 < 0)
    (slices_SortFunc (map_to_list m) kv_cmp).
Proof.
  apply sorted_distinct_strict; [apply SortFunc_Sorted|].
  rewrite SortFunc_Permutation. apply NoDup_fst_map_to_list.
Qed.

(** ** Attributes: validation and markup *)

Lemma validAttr_or_invalid (a : kv) : validAttr a ∨ invalidAttr a.
Proof.
  unfold validAttr, invalidAttr. destruct a as [k [|v|v|t]]; simpl;
    destruct (decide (strings_TrimSpace k = "")); eauto 6.
Qed.

Lemma eqb_empty_false (k : string) : k ≠ "" → String.eqb k "" = false.
Proof. intros Hk. by apply String.eqb_neq. Qed.

(** What the loop writes does not depend on what the builder holds. *)
Lemma renderAttrsLoop_builder (l : list kv) (b : string) :
  renderAttrsLoop l b
  = ((b +:+ (renderAttrsLoop l "").1), (renderAttrsLoop l "").2).
Proof.
  revert b. induction l as [|[k v] l IH]; intros b.
  { simpl. by rewrite append_nil_r. }
  cbn [renderAttrsLoop fst snd].
  destruct (String.eqb (strings_TrimSpace k) ""); [by rewrite append_nil_r|].
  destruct v as [|v|[]|t]; cbn [fst snd]; try by rewrite append_nil_r.
  - rewrite IH, (IH ("" +:+ _)). cbn [fst snd]. by rewrite !append_nil_l, !append_assoc.
  - rewrite IH, (IH ("" +:+ _)). cbn [fst snd]. by rewrite !append_nil_l, !append_assoc.
  - apply IH.
Qed.

(** On valid attributes the loop writes the markup of each, in order. *)
Lemma renderAttrsLoop_valid (l : list kv) (b : string) :
  Forall validAttr l →
  renderAttrsLoop l b = (b +:+ concatStrings (attrMarkup <$> l), None).
Proof.
  intros Hl. revert b. induction Hl as [|[k v] l [Hk Hv] Hl IH]; intros b.
  { simpl. by rewrite append_nil_r. }
  cbn [renderAttrsLoop fst snd]. simpl in Hk, Hv.
  rewrite eqb_empty_false by done.
  rewrite fmap_cons. cbn [concatStrings]. unfold attrMarkup at 1. cbn [fst snd].
  destruct Hv as [[s ->]|[[] ->]].
  - rewrite IH. by rewrite !append_assoc.
  - rewrite IH. by rewrite !append_assoc.
  - rewrite IH. by rewrite append_nil_l.
Qed.

Lemma renderAttrsLoop_first_invalid (pre post : list kv) (a : kv) (b : string) :
  Forall validAttr pre → invalidAttr a →
  (renderAttrsLoop (pre ++ a :: post) b).2 = Some (attrError a).
Proof.
  intros Hpre Ha. rewrite renderAttrsLoop_builder. cbn [snd]. clear b.
  induction Hpre as [|[k v] l [Hk Hv] Hl IH].
  - destruct a as [k v]. unfold attrError. cbn [app renderAttrsLoop fst snd].
    destruct (String.eqb (strings_TrimSpace k) "") eqn:Hk; [done|].
    apply String.eqb_neq in Hk.
    destruct Ha as [Ha|[Ha|[t Ha]]]; simpl in Ha; [done|by subst..].
  - simpl in Hk, Hv. rewrite <-app_comm_cons. cbn [renderAttrsLoop fst snd].
    rewrite eqb_empty_false by done.
    destruct Hv as [[s ->]|[[] ->]]; by rewrite renderAttrsLoop_builder.
Qed.

(** A slice with an invalid attribute splits at its first invalid one. *)
Lemma first_invalid_split (l : list kv) :
  Exists invalidAttr l →
  ∃ pre a post, l = pre ++ a :: post ∧ Forall validAttr pre ∧ invalidAttr a.
Proof.
  induction l as [|x l IH]; intros Hex; [by apply Exists_nil in Hex|].
  destruct (validAttr_or_invalid x) as [Hx|Hx].
  - apply Exists_cons in Hex as [Hex|Hex].
    + exists [], x, l. by repeat split.
    + destruct (IH Hex) as (pre & a & post & -> & Hpre & Ha).
      exists (x :: pre), a, post. repeat split; [|done]. by constructor.
  - exists [], x, l. by repeat split.
Qed.

(** ** Children *)

Lemma renderChildrenLoop_builder render (cs : list Node) (b : string) :
  renderChildrenLoop render cs b
  = ((b +:+ (renderChildrenLoop render cs "").1),
     (renderChildrenLoop render cs "").2).
Proof.
  revert b. induction cs as [|c cs IH]; intros b.
  { simpl. by rewrite append_nil_r. }
  cbn [renderChildrenLoop].
  destruct (render c) as [s [err|]]; cbn [fst snd].
  - by rewrite append_nil_r.
  - rewrite IH, (IH ("" +:+ s)). cbn [fst snd].
    by rewrite append_nil_l, append_assoc.
Qed.

(** The loop stops at the first child that fails: the children before it
    are rendered, the ones after it are not looked at. *)
Lemma renderChildrenLoop_first_failure render (pre post : list Node)
    (c : Node) (s : string) (err : error) (b : string) :
  Forall (λ n, (render n).2 = None) pre → render c = (s, Some err) →
  renderChildrenLoop render (pre ++ c :: post) b
  = (b +:+ concatStrings ((λ n, (render n).1) <$> pre), Some err).
Proof.
  intros Hpre Hc. revert b. induction Hpre as [|n pre Hn Hpre IH]; intros b.
  - cbn [app renderChildrenLoop]. rewrite Hc. simpl. by rewrite append_nil_r.
  - rewrite <-app_comm_cons. cbn [renderChildrenLoop].
    destruct (render n) as [sn [e|]] eqn:Hrn; [done|].
    rewrite IH, fmap_cons. cbn [concatStrings]. rewrite Hrn. cbn [fst].
    by rewrite append_assoc.
Qed.

Lemma renderChildrenLoop_success render (cs : list Node) (b : string) :
  Forall (λ n, (render n).2 = None) cs →
  renderChildrenLoop render cs b
  = (b +:+ concatStrings ((λ n, (render n).1) <$> cs), None).
Proof.
  intros Hcs. revert b. induction Hcs as [|n cs Hn Hcs IH]; intros b.
  - simpl. by rewrite append_nil_r.
  - cbn [renderChildrenLoop].
    destruct (render n) as [sn [e|]] eqn:Hrn; [done|].
    rewrite IH, fmap_cons. cbn [concatStrings]. rewrite Hrn. cbn [fst].
    by rewrite append_assoc.
Qed.

(** ** Elements: the equations of [Render] *)

Lemma Element_Render_empty_tag (me : Element) :
  Tag me = "" →
  Element_Render me
  = match Element_renderChildren me "" with
    | (_, Some err) => ("", Some err)
    | (out, None) => (out, None)
    end.
Proof. destruct me as [tag void attrs cs]. simpl. by intros ->. Qed.

Lemma Element_Render_tagged (me : Element) :
  Tag me ≠ "" →
  Element_Render me
  = match Element_renderAttrs me ("<" +:+ Tag me) with
    | (_, Some err) => ("", Some err)
    | (builder, None) =>
      if IsVoid me then (builder +:+ ">", None) else
      match Element_renderChildren me (builder +:+ ">") with
      | (_, Some _) => ("", None)
      | (builder, None) => (builder +:+ "</" +:+ Tag me +:+ ">", None)
      end
    end.
Proof.
  destruct me as [tag void attrs cs]. cbn [Tag]. intros Htag.
  cbn [Element_Render Tag]. by rewrite eqb_empty_false.
Qed.

Lemma validAttrs_sorted (m : KV) :
  validAttrs m →
  Forall validAttr (slices_SortFunc (map_to_list m) kv_cmp).
Proof.
  intros Hm. rewrite SortFunc_Permutation. apply map_Forall_to_list in Hm.
  eapply Forall_impl; [exact Hm|]. by intros [k v].
Qed.

Lemma Element_renderAttrs_valid (me : Element) (b : string) :
  validAttrs (Attrs me) →
  Element_renderAttrs me b
  = (b +:+ concatStrings
             (attrMarkup <$> slices_SortFunc (map_to_list (Attrs me)) kv_cmp),
     None).
Proof.
  intros Hm. unfold Element_renderAttrs, renderAttrsFrom.
  by apply renderAttrsLoop_valid, validAttrs_sorted.
Qed.

(** The iteration order of the map does not show in the result. *)
Lemma renderAttrsFrom_enumeration (me : Element) (order : list kv) (b : string) :
  order ≡ₚ map_to_list (Attrs me) →
  renderAttrsFrom order b = Element_renderAttrs me b.
Proof.
  intros Hp. unfold Element_renderAttrs, renderAttrsFrom. cbv zeta.
  by rewrite (SortFunc_enumeration (Attrs me) order).
Qed.

Lemma Element_Render_valid (me : Element) :
  Tag me ≠ "" → validAttrs (Attrs me) →
  Element_Render me
  = if IsVoid me then (openingTag me, None) else
    match Element_renderChildren me "" with
    | (_, Some _) => ("", None)
    | (inner, None) =>
        (openingTag me +:+ inner +:+ "</" +:+ Tag me +:+ ">", None)
    end.
Proof.
  intros Htag Hm. rewrite Element_Render_tagged by done.
  rewrite Element_renderAttrs_valid by done. unfold openingTag.
  destruct (IsVoid me); [by rewrite !append_assoc|].
  unfold Element_renderChildren. rewrite renderChildrenLoop_builder.
  destruct (renderChildrenLoop Node_Render (Children me) "") as [inner [e|]];
    cbn [fst snd]; [done|].
  by rewrite !append_assoc.
Qed.

Lemma Element_renderAttrs_invalid (me : Element) (b : string) :
  (∃ k v, Attrs me !! k = Some v ∧ invalidAttr (k, v)) →
  ∃ err, (Element_renderAttrs me b).2 = Some err.
Proof.
  intros (k & v & Hkv & Hinv).
  destruct (first_invalid_split (slices_SortFunc (map_to_list (Attrs me)) kv_cmp))
    as (pre & a & post & Heq & Hpre & Ha).
  { apply Exists_exists. exists (k, v). split; [|done].
    rewrite SortFunc_Permutation. by apply elem_of_map_to_list. }
  exists (attrError a). unfold Element_renderAttrs, renderAttrsFrom.
  cbv zeta. rewrite Heq. by apply renderAttrsLoop_first_invalid.
Qed.

(** The attribute that fails is the first invalid one in key order. *)
Lemma Element_renderAttrs_first_invalid (me : Element) (b k : string) (v : any) :
  Attrs me !! k = Some v → invalidAttr (k, v) →
  (∀ k' v', Attrs me !! k' = Some v' → strings_Compare k' k < 0 →
            validAttr (k', v')) →
  (Element_renderAttrs me b).2 = Some (attrError (k, v)).
Proof.
  intros Hkv Hinv Hbefore.
  pose proof (SortFunc_strictly_ascending (Attrs me)) as HS.
  assert ((k, v) ∈ slices_SortFunc (map_to_list (Attrs me)) kv_cmp) as Hin.
  { rewrite SortFunc_Permutation. by apply elem_of_map_to_list. }
  apply list_elem_of_split in Hin as (pre & post & Heq).
  unfold Element_renderAttrs, renderAttrsFrom. cbv zeta. rewrite Heq.
  apply renderAttrsLoop_first_invalid; [|done].
  apply Forall_forall. intros [k' v'] Hin'.
  apply Hbefore.
  - apply elem_of_map_to_list. rewrite <-(SortFunc_Permutation (map_to_list _)).
    rewrite Heq. apply elem_of_app. by left.
  - rewrite Heq in HS.
    apply (StronglySorted_app_1_elem_of _ _ _ (k', v') (k, v) HS Hin').
    by left.
Qed.

(** A failing child of an element with a tag: the result is the empty
    string and a nil error. *)
Lemma Element_Render_child_failure_tagged (me : Element) (pre post : list Node)
    (c : Node) (s : string) (err : error) :
  Tag me ≠ "" → validAttrs (Attrs me) →
  IsVoid me = false → Children me = pre ++ c :: post →
  Forall (λ n, (Node_Render n).2 = None) pre → Node_Render c = (s, Some err) →
  Element_Render me = ("", None).
Proof.
  intros Htag Hm Hvoid Hcs Hpre Hc. rewrite Element_Render_valid, Hvoid by done.
  unfold Element_renderChildren. rewrite Hcs.
  by rewrite (renderChildrenLoop_first_failure _ _ _ _ s err).
Qed.

(** A failing child of a transparent wrapper: its error is returned. *)
Lemma Element_Render_child_failure_wrapper (me : Element) (pre post : list Node)
    (c : Node) (s : string) (err : error) :
  Tag me = "" → Children me = pre ++ c :: post →
  Forall (λ n, (Node_Render n).2 = None) pre → Node_Render c = (s, Some err) →
  Element_Render me = ("", Some err).
Proof.
  intros Htag Hcs Hpre Hc. rewrite Element_Render_empty_tag by done.
  unfold Element_renderChildren. rewrite Hcs.
  by rewrite (renderChildrenLoop_first_failure _ _ _ _ s err).
Qed.

(** ** Text nodes: the result of [Render] *)

Lemma Text_Render_nonempty (s : string) :
  s ≠ "" →
  Text_Render s
  = (html_EscapeString (leadingSpace s +:+ collapseWhitespace s +:+ trailingSpace s),
     None).
Proof.
  intros Hs. unfold Text_Render, leadingSpace, trailingSpace.
  rewrite eqb_empty_false by done. cbv zeta.
  rewrite Join_FieldsFunc_collapse.
  destruct (unicode_IsSpace (rune_of_byte (byteAt s 0)));
    destruct ((1 <? String.length s)%nat && _);
    by rewrite ?append_nil_l, ?append_nil_r, ?append_assoc.
Qed.

(** ** The bytes of a string, and text in ASCII *)

Lemma bytesOf_app (s1 s2 : string) : bytesOf (s1 +:+ s2) = bytesOf s1 ++ bytesOf s2.
Proof.
  induction s1 as [|c s1 IH]; [done|].
  rewrite append_cons. cbn [bytesOf app]. by rewrite IH.
Qed.

Lemma rangeString_ascii (c : ascii) (t : string) :
  (rune_of_byte c <? utf8_RuneSelf) = true →
  rangeString (String c t) = (rune_of_byte c, String c "") :: rangeString t.
Proof.
  intros Hc. cbn [rangeString]. unfold utf8_DecodeRuneInString, utf8_first.
  unfold utf8_RuneSelf in Hc. rewrite Hc.
  by destruct t as [|c1 [|c2 [|c3 t]]].
Qed.

Lemma rangeString_isASCII (s : string) :
  isASCII s = true →
  rangeString s = (λ c, (rune_of_byte c, String c "")) <$> bytesOf s.
Proof.
  unfold isASCII. induction s as [|c t IH]; [done|].
  cbn [bytesOf forallb]. intros [Hc Ht]%andb_true_iff.
  rewrite rangeString_ascii by done. rewrite fmap_cons. by rewrite IH.
Qed.

Lemma last_bytesOf (s : string) :
  s ≠ "" → last (bytesOf s) = Some (byteAt s (String.length s - 1)).
Proof.
  induction s as [|c t IH]; [done|]. intros _.
  destruct t as [|c' t']; [done|].
  cbn [bytesOf] in *. rewrite last_cons. rewrite IH by done.
  cbn [String.length]. by rewrite !Nat.sub_succ, !Nat.sub_0_r.
Qed.

Lemma length_bytesOf (s : string) : length (bytesOf s) = String.length s.
Proof. induction s as [|c t IH]; [done|]. cbn. by rewrite IH. Qed.

(** ** Attributes: a map that does not pass validation *)

Lemma not_validAttrs_invalid (attrs : KV) :
  ¬ validAttrs attrs → ∃ k v, attrs !! k = Some v ∧ invalidAttr (k, v).
Proof.
  intros Hn. unfold validAttrs in Hn.
  apply map_not_Forall in Hn; [|intros k v; apply _].
  destruct Hn as (k & v & Hk & Hv). exists k, v. split; [done|].
  by destruct (validAttr_or_invalid (k, v)).
Qed.

Lemma concatStrings_app (a b : list string) :
  concatStrings (a ++ b) = concatStrings a +:+ concatStrings b.
Proof.
  induction a as [|x a IH]; [done|].
  cbn [app concatStrings]. by rewrite IH, append_assoc.
Qed.

(** ** Attributes: an attribute with the value [false] *)





(** * The claims *)

(** C1 (a defect of html.go): the error of a child is not propagated by
    an element with a tag.  A [div] with a nil attribute value fails to
    render with the nil value error; a [div] that has it as its child
    returns the empty string and a nil error, and so does every element
    with a non-empty tag, no attributes and that child among text nodes.
    The same child under a transparent wrapper is propagated. *)
Theorem C1_child_error_swallowed_by_tagged_parent :
  let child := NodeElement (Div [{["x" := anyNil]}]) in
  Node_Render child = ("", Some (NilAttributeValue "x"))
  ∧ Element_Render (Element_Add (Div []) [child]).1 = ("", None)
  ∧ Element_Render (Element_Add (Empty []) [child]).1
    = ("", Some (NilAttributeValue "x"))
  ∧ ∀ (c : ascii) (tag : string) (before after : list Text),
      Element_Render
        (mkElement (String c tag) false ∅
           ((NodeText <$> before) ++ child :: (NodeText <$> after)))
      = ("", None).
Proof.
  assert (Node_Render (NodeElement (Div [{["x" := anyNil]}]))
          = ("", Some (NilAttributeValue "x"))) as Hchild by (by vm_compute).
  split_and!; [done|by vm_compute|by vm_compute|].
  intros c tag before after.
  eapply Element_Render_child_failure_tagged; [done| |done|done| |exact Hchild].
  - apply map_Forall_empty.
  - apply Forall_fmap, Forall_forall. intros t _.
    unfold compose. cbn [Node_Render]. unfold Text_Render.
    by destruct (String.eqb t "").
Qed.

(** C2 (a defect of html.go): [Element.Render] returns from its empty-tag
    branch before [renderAttrs], the only place where attributes are
    validated, is called.  The transparent wrapper [Empty(KV{"x": nil})]
    carries an invalid attribute and renders without error, where the same
    attribute under a tag makes [Render] fail with the nil value error; so
    do a wrapper with an attribute value that is neither a string nor a
    bool and a wrapper with a blank key.  In general a wrapper with an
    invalid attribute whose children render returns no error, and the same
    element under any non-empty tag returns the empty string and an error.
    The claim, that every wrapper with an invalid attribute fails, does
    not hold of the code. *)
Theorem C2_wrapper_skips_attribute_validation :
  let me := Empty [{["x" := anyNil]}] in
  (Tag me = "" ∧ Attrs me !! "x" = Some anyNil ∧ invalidAttr ("x", anyNil))
  ∧ Element_Render me = ("", None)
  ∧ (Element_renderAttrs me "").2 = Some (NilAttributeValue "x")
  ∧ Element_Render (Div [{["x" := anyNil]}]) = ("", Some (NilAttributeValue "x"))
  ∧ Element_Render (Empty [{["x" := anyOther "int"]}]) = ("", None)
  ∧ Element_Render (Div [{["x" := anyOther "int"]}])
    = ("", Some (InvalidAttributeType "int" "x"))
  ∧ Element_Render (Empty [{[" " := anyString "v"]}]) = ("", None)
  ∧ Element_Render (Div [{[" " := anyString "v"]}]) = ("", Some EmptyAttributeKey)
  ∧ (∀ (void : bool) (attrs : KV) (children : list Node),
       (∃ k v, attrs !! k = Some v ∧ invalidAttr (k, v)) →
       Forall (λ n, (Node_Render n).2 = None) children →
       (∃ out, Element_Render (mkElement "" void attrs children) = (out, None))
       ∧ ∀ tag, tag ≠ "" →
           ∃ err, Element_Render (mkElement tag void attrs children)
                  = ("", Some err))
  ∧ ¬ (∀ me : Element, Tag me = "" →
         (∃ k v, Attrs me !! k = Some v ∧ invalidAttr (k, v)) →
         ∃ err, (Element_Render me).2 = Some err).
Proof.
  assert (Element_Render (Empty [{["x" := anyNil]}]) = ("", None)) as Hr
    by (vm_compute; done).
  split_and!;
    [done|by vm_compute|by right; left|done|by vm_compute..| |].
  - intros void attrs children Hinv Hcs. split.
    + rewrite Element_Render_empty_tag by done.
      unfold Element_renderChildren. cbn [Children].
      rewrite renderChildrenLoop_success by done. by eexists.
    + intros tag Htag. rewrite Element_Render_tagged by done. cbn [Tag].
      destruct (Element_renderAttrs_invalid
                  (mkElement tag void attrs children) ("<" +:+ tag))
        as [err Herr]; [done|].
      exists err.
      by destruct (Element_renderAttrs _ _) as [b [e|]]; simplify_eq/=.
  - intros Hclaim.
    destruct (Hclaim (Empty [{["x" := anyNil]}])) as [err Herr]; [done| |].
    + exists "x", anyNil. split; [by vm_compute|by right; left].
    + by rewrite Hr in Herr.
Qed.

(** C3 (a defect of html.go): the boundary test of [Text.Render] reads
    the first and the last byte, not the first and the last character.  A
    text that starts, or ends, with U+2003 EM SPACE, a white-space code
    point of three bytes, gets no boundary space; a text that ends with
    U+00E0, which is not white space and whose last byte is 0xA0, gets a
    space appended. *)
Theorem C3_boundary_test_reads_bytes :
  rangeString (emSpace +:+ "a") = [(0x2003, emSpace); (0x61, "a")]
  ∧ unicode_IsSpace 0x2003 = true
  ∧ Text_Render (emSpace +:+ "a") = ("a", None)
  ∧ Text_Render ("a" +:+ emSpace) = ("a", None)
  ∧ rangeString ("voil" +:+ aGrave)
    = [(0x76, "v"); (0x6F, "o"); (0x69, "i"); (0x6C, "l"); (0xE0, aGrave)]
  ∧ unicode_IsSpace 0xE0 = false
  ∧ Text_Render ("voil" +:+ aGrave) = ("voil" +:+ aGrave +:+ " ", None).
Proof. vm_compute. done. Qed.

(** C4: the attributes of an element with a tag and valid attributes are
    written in ascending order of their keys, compared byte by byte: the
    sorted slice is a permutation of the map whose keys increase strictly,
    the attribute markup is the markup of its entries in that order, and
    neither the order in which Go iterates over the map nor the order in
    which the entries were inserted shows in the result. *)
Theorem C4_attributes_in_ascending_key_order (me : Element) :
  Tag me ≠ "" → validAttrs (Attrs me) →
  let sorted := slices_SortFunc (map_to_list (Attrs me)) kv_cmp in
  let opening := "<" +:+ Tag me +:+ concatStrings (attrMarkup <$> sorted) +:+ ">" in
  StronglySorted (λ a b : kv, strings_Compare a.1 b.1 < 0) sorted
  ∧ sorted ≡ₚ map_to_list (Attrs me)
  ∧ (∀ b, Element_renderAttrs me b
          = (b +:+ concatStrings (attrMarkup <$> sorted), None))
  ∧ (∀ order b, order ≡ₚ map_to_list (Attrs me) →
                renderAttrsFrom order b = Element_renderAttrs me b)
  ∧ Element_Render me
    = (if IsVoid me then (opening, None)
       else match Element_renderChildren me "" with
            | (_, Some _) => ("", None)
            | (inner, None) =>
                (opening +:+ inner +:+ "</" +:+ Tag me +:+ ">", None)
            end)
  ∧ (∀ k1 v1 k2 v2 children, k1 ≠ k2 →
       Element_Render
         (mkElement (Tag me) (IsVoid me) (<[k1:=v1]> (<[k2:=v2]> (Attrs me)))
            children)
       = Element_Render
           (mkElement (Tag me) (IsVoid me) (<[k2:=v2]> (<[k1:=v1]> (Attrs me)))
              children))
  ∧ Element_Render (Div [<["id" := anyString "b"]> {["class" := anyString "a"]}])
    = ("<div class=" +:+ dquote +:+ "a" +:+ dquote +:+ " id=" +:+ dquote +:+ "b"
         +:+ dquote +:+ "></div>", None)
  ∧ Element_Render (Div [<["class" := anyString "a"]> {["id" := anyString "b"]}])
    = Element_Render (Div [<["id" := anyString "b"]> {["class" := anyString "a"]}]).
Proof.
  intros Htag Hm sorted opening. split_and!.
  - apply SortFunc_strictly_ascending.
  - apply SortFunc_Permutation.
  - intros b. by apply Element_renderAttrs_valid.
  - intros order b. apply renderAttrsFrom_enumeration.
  - by apply Element_Render_valid.
  - intros k1 v1 k2 v2 children Hne. by rewrite insert_insert_ne.
  - by vm_compute.
  - by vm_compute.
Qed.

Lemma C4_attributes_in_ascending_key_order_witness :
  let me := Div [<["id" := anyString "b"]> {["class" := anyString "a"]}] in
  (Tag me ≠ "" ∧ validAttrs (Attrs me))
  ∧ renderAttrsFrom [("id", anyString "b"); ("class", anyString "a")] "<div"
    = Element_renderAttrs me "<div".
Proof.
  assert (validAttrs
            (Attrs (Div [<["id" := anyString "b"]> {["class" := anyString "a"]}])))
    as Hvalid
    by (apply (bool_decide_unpack _); vm_compute; reflexivity).
  split; [by split|].
  destruct (C4_attributes_in_ascending_key_order
              (Div [<["id" := anyString "b"]> {["class" := anyString "a"]}]))
    as (_ & _ & _ & Horder & _); [done|exact Hvalid|].
  apply Horder. vm_compute. apply perm_swap.
Defined.



(** C6 (a defect of html.go, the one of C3): [Text.Render] never fails,
    and its result is the escaped form of the collapsed and trimmed
    string between two boundary spaces that the code decides from the
    first and the last byte.  On ASCII text these are restored spaces, as
    the claim says: a space stands on a side only where the text had white
    space on that side.  The text [voilà] holds no white space at all;
    its last byte is 0xA0, and the code appends a space that was never
    there: the result is not the collapsed text with restored boundary
    spaces. *)
Theorem C6_boundary_space_that_was_not_there :
  (∀ s, (Text_Render s).2 = None)
  ∧ (∀ s, s ≠ "" →
       (Text_Render s).1
       = html_EscapeString
           (leadingSpace s +:+ collapseWhitespace s +:+ trailingSpace s))
  ∧ (∀ s, isASCII s = true → restoredText s (Text_Render s).1)
  ∧ html_EscapeString ("&<>" +:+ dquote +:+ "'") = "&amp;&lt;&gt;&#34;&#39;"
  ∧ (∀ c, escapeByte c = String c "" ∨ c = "&"%char ∨ c = "<"%char
          ∨ c = ">"%char ∨ c = "034"%char ∨ c = "'"%char)
  ∧ collapseWhitespace
      (String "009" ("a" +:+ emSpace +:+ "  b" +:+ String "010" ""))
    = "a b"
  ∧ Text_Render " hello  world " = (" hello world ", None)
  ∧ Text_Render "" = ("", None)
  ∧ (let s := "voil" +:+ aGrave in
     Forall (λ c, isSpaceRune c = false) (rangeString s)
     ∧ startsWithSpaceRune s = false
     ∧ endsWithSpaceRune s = false
     ∧ collapseWhitespace s = s
     ∧ Text_Render s = (s +:+ " ", None)
     ∧ ¬ restoredText s (Text_Render s).1)
  ∧ ¬ (∀ s, restoredText s (Text_Render s).1).
Proof.
  assert (¬ restoredText ("voil" +:+ aGrave) (Text_Render ("voil" +:+ aGrave)).1)
    as Hvoila.
  { intros (lead & trail & [->|[-> Hl]] & [->|[-> Ht]] & H);
      [vm_compute in H|vm_compute in Ht|vm_compute in Hl..]; discriminate. }
  split_and!.
  - intros s. unfold Text_Render. by destruct (String.eqb s "").
  - intros s Hs. by rewrite Text_Render_nonempty.
  - intros s Hascii. destruct (decide (s = "")) as [->|Hs].
    { exists "", "". split_and!; [by left|by left|by vm_compute]. }
    rewrite Text_Render_nonempty by done. cbn [fst].
    exists (leadingSpace s), (trailingSpace s). split_and!; [| |done].
    + unfold restoredSpace, leadingSpace, startsWithSpaceRune.
      rewrite rangeString_isASCII by done.
      destruct s as [|c t]; [done|].
      change (byteAt (String c t) 0) with c. cbn [bytesOf].
      rewrite fmap_cons. cbn [head from_option]. unfold isSpaceRune. cbn [fst].
      destruct (unicode_IsSpace (rune_of_byte c)); [by right|by left].
    + unfold restoredSpace, trailingSpace, endsWithSpaceRune.
      rewrite rangeString_isASCII, fmap_last, last_bytesOf by done.
      cbn [fmap option_fmap option_map from_option]. unfold isSpaceRune. cbn [fst].
      destruct (1 <? String.length s)%nat; [|by left]. rewrite andb_true_l.
      destruct (unicode_IsSpace _); [by right|by left].
  - by vm_compute.
  - intros c. unfold escapeByte.
    destruct (Ascii.eqb c "&") eqn:H1; [apply Ascii.eqb_eq in H1; eauto|].
    destruct (Ascii.eqb c "'") eqn:H2; [apply Ascii.eqb_eq in H2; eauto 6|].
    destruct (Ascii.eqb c "<") eqn:H3; [apply Ascii.eqb_eq in H3; eauto|].
    destruct (Ascii.eqb c ">") eqn:H4; [apply Ascii.eqb_eq in H4; eauto|].
    destruct (Ascii.eqb c "034") eqn:H5; [apply Ascii.eqb_eq in H5; eauto 6|].
    by left.
  - by vm_compute.
  - by vm_compute.
  - by vm_compute.
  - cbv zeta. split_and!; [|by vm_compute..|exact Hvoila].
    apply (bool_decide_unpack _). by vm_compute.
  - intros Hclaim. exact (Hvoila (Hclaim _)).
Qed.

(** C7, as stated, fails: an element with the void flag and an empty tag
    name takes the empty-tag path, which renders the children. *)
Lemma C7_counterexample_void_wrapper_renders_children :
  let me := mkElement "" true ∅ [NodeText "x"] in
  (IsVoid me = true ∧ Children me = [NodeText "x"]
   ∧ Element_Render me = ("x", None))
  ∧ ¬ (∀ me : Element, IsVoid me = true →
         Element_Render me = Element_Render (mkElement (Tag me) true (Attrs me) [])).
Proof.
  split; [by vm_compute|].
  intros Hclaim. specialize (Hclaim (mkElement "" true ∅ [NodeText "x"]) eq_refl).
  vm_compute in Hclaim. done.
Qed.

(** C7, amended: for an element with the void flag and a non-empty tag
    name, [Render] returns the attribute error or exactly the opening tag,
    whatever the children are; with valid attributes it is the opening
    tag.  [Add] on an element with the void flag changes nothing and
    returns the element. *)
Theorem C7_void_element_renders_opening_tag_only (me : Element) :
  IsVoid me = true → Tag me ≠ "" →
  Element_Render me
  = match Element_renderAttrs me ("<" +:+ Tag me) with
    | (_, Some err) => ("", Some err)
    | (builder, None) => (builder +:+ ">", None)
    end
  ∧ (∀ children,
       Element_Render (mkElement (Tag me) true (Attrs me) children)
       = Element_Render me)
  ∧ (validAttrs (Attrs me) →
     Element_Render me = (openingTag me, None))
  ∧ (∀ children, Element_Add me children = (me, NodeElement me))
  ∧ Element_Render Br = ("<br>", None)
  ∧ Element_Render (mkElement "br" true ∅ [NodeText "x"]) = ("<br>", None).
Proof.
  intros Hvoid Htag. split_and!.
  - by rewrite Element_Render_tagged, Hvoid.
  - intros children. rewrite !Element_Render_tagged by done.
    cbn [IsVoid]. by rewrite Hvoid.
  - intros Hm. by rewrite Element_Render_valid, Hvoid.
  - intros children. unfold Element_Add. by rewrite Hvoid.
  - by vm_compute.
  - by vm_compute.
Qed.

Lemma C7_void_element_renders_opening_tag_only_witness :
  let me := mkElement "img" true {["src" := anyString "a.png"]} [NodeText "x"] in
  (IsVoid me = true ∧ Tag me ≠ "")
  ∧ Element_Render me = Element_Render (Img [{["src" := anyString "a.png"]}])
  ∧ Element_Add me [NodeText "y"] = (me, NodeElement me).
Proof.
  destruct (C7_void_element_renders_opening_tag_only
              (mkElement "img" true {["src" := anyString "a.png"]} [NodeText "x"]))
    as (_ & Hchildren & _ & Hadd & _); [reflexivity|done|].
  split; [by split|]. split.
  - symmetry. apply (Hchildren []).
  - apply Hadd.
Defined.

(** C8, as stated, fails: with a nil value under a smaller key, the
    error is the nil value error of that attribute; and under a blank key
    the integer value gives the empty key error. *)
Lemma C8_counterexample_other_error_first :
  (let me := Div [<["a" := anyNil]> {["b" := anyOther "int"]}] in
   Tag me ≠ "" ∧ Attrs me !! "b" = Some (anyOther "int")
   ∧ Element_Render me = ("", Some (NilAttributeValue "a")))
  ∧ Element_Render (Div [{[" " := anyOther "int"]}]) = ("", Some EmptyAttributeKey)
  ∧ ¬ (∀ (me : Element) k typ, Tag me ≠ "" →
         Attrs me !! k = Some (anyOther typ) →
         ∃ typ' k', Element_Render me = ("", Some (InvalidAttributeType typ' k'))).
Proof.
  split_and!.
  - split_and!; [done|by vm_compute|by vm_compute].
  - by vm_compute.
  - intros Hclaim.
    destruct (Hclaim (Div [<["a" := anyNil]> {["b" := anyOther "int"]}]) "b" "int")
      as (typ' & k' & Hr); [done|by vm_compute|].
    vm_compute in Hr. done.
Qed.

(** C8, amended: an element with a tag and an attribute whose value is
    neither a string nor a bool fails to render and returns the empty
    string; the error is the invalid type error of that attribute when
    its trimmed key is not empty and every attribute with a smaller key
    is valid. *)
Theorem C8_invalid_attribute_type_fails (me : Element) (k typ : string) :
  Tag me ≠ "" → Attrs me !! k = Some (anyOther typ) →
  (∃ err, Element_Render me = ("", Some err))
  ∧ (strings_TrimSpace k ≠ "" →
     (∀ k' v', Attrs me !! k' = Some v' → strings_Compare k' k < 0 →
               validAttr (k', v')) →
     Element_Render me
     = ("", Some (InvalidAttributeType typ (strings_TrimSpace k)))
     ∧ error_Error (InvalidAttributeType typ (strings_TrimSpace k))
       = "attribute value must be string or bool, got " +:+ typ
         +:+ " for key '" +:+ strings_TrimSpace k +:+ "'").
Proof.
  intros Htag Hk.
  assert (invalidAttr (k, anyOther typ)) as Hinv by (right; right; eauto).
  split.
  - destruct (Element_renderAttrs_invalid me ("<" +:+ Tag me)) as [err Herr];
      [by eauto|].
    exists err. rewrite Element_Render_tagged by done.
    destruct (Element_renderAttrs me ("<" +:+ Tag me)) as [b [e|]];
      simpl in Herr; by simplify_eq.
  - intros Hkey Hbefore. split; [|done].
    pose proof (Element_renderAttrs_first_invalid me ("<" +:+ Tag me) k
                  (anyOther typ) Hk Hinv Hbefore) as Herr.
    rewrite Element_Render_tagged by done.
    destruct (Element_renderAttrs me ("<" +:+ Tag me)) as [b [e|]];
      simpl in Herr; [|done].
    simplify_eq. unfold attrError. cbn [fst snd].
    by rewrite eqb_empty_false.
Qed.

Lemma C8_invalid_attribute_type_fails_witness :
  let me := Div [<["a" := anyString "x"]> {["b" := anyOther "int"]}] in
  (Tag me ≠ "" ∧ Attrs me !! "b" = Some (anyOther "int"))
  ∧ Element_Render me = ("", Some (InvalidAttributeType "int" "b")).
Proof.
  assert (Attrs (Div [<["a" := anyString "x"]> {["b" := anyOther "int"]}]) !! "b"
          = Some (anyOther "int")) as Hb by (vm_compute; reflexivity).
  split; [by split|].
  destruct (C8_invalid_attribute_type_fails
              (Div [<["a" := anyString "x"]> {["b" := anyOther "int"]}]) "b" "int")
    as (_ & Hkind); [done|exact Hb|].
  destruct Hkind as [Hr _]; [by vm_compute| |exact Hr].
  intros k' v' Hk' Hlt. cbn [Div newElement Attrs] in Hk'.
  apply lookup_insert_Some in Hk' as [[<- <-]|[Hne Hk']].
  - split; [by vm_compute|left; eauto].
  - apply lookup_singleton_Some in Hk' as [<- <-]. by vm_compute in Hlt.
Defined.

(** C9: the entry point.  When the node fails to render, the writer is
    left as it was and the error of the node is returned; when the node
    renders, the whole string is handed to [Write] once, and what [Write]
    returns as error is returned as it is. *)
Theorem C9_Render_entry_point {W : Type}
    (Write : W → string → W * (nat * option error))
    (writer : W) (node : Node) (s : string) (result : option error) :
  Node_Render node = (s, result) →
  Render Write writer node
  = match result with
    | Some err => (writer, Some err)
    | None => ((Write writer s).1, (Write writer s).2.2)
    end.
Proof.
  intros Hr. unfold Render. rewrite Hr. destruct result as [err|]; [done|].
  by destruct (Write writer s) as [w [n e]].
Qed.

Lemma C9_Render_entry_point_witness :
  (Node_Render (NodeText "test") = ("test", None)
   ∧ Node_Render (NodeElement (Div [{["invalid" := anyNil]}]))
     = ("", Some (NilAttributeValue "invalid")))
  ∧ Render Buffer_Write "" (NodeText "test") = ("test", None)
  ∧ Render errorWriter_Write () (NodeText "test")
    = ((), Some (ForeignError "write error"))
  ∧ Render Buffer_Write "" (NodeElement (Div [{["invalid" := anyNil]}]))
    = ("", Some (NilAttributeValue "invalid")).
Proof.
  assert (Node_Render (NodeText "test") = ("test", None)) as H1
    by (vm_compute; reflexivity).
  assert (Node_Render (NodeElement (Div [{["invalid" := anyNil]}]))
          = ("", Some (NilAttributeValue "invalid"))) as H2
    by (vm_compute; reflexivity).
  split; [by split|]. split_and!.
  - apply (C9_Render_entry_point Buffer_Write "" _ _ _ H1).
  - apply (C9_Render_entry_point errorWriter_Write () _ _ _ H1).
  - apply (C9_Render_entry_point Buffer_Write "" _ _ _ H2).
Defined.




(** * Further properties of the code *)

(** ** The loop over the children *)

Lemma renderChildrenLoop_app render (a b : list Node) (builder : string) :
  renderChildrenLoop render (a ++ b) builder
  = match renderChildrenLoop render a builder with
    | (builder', Some err) => (builder', Some err)
    | (builder', None) => renderChildrenLoop render b builder'
    end.
Proof.
  revert builder. induction a as [|c a IH]; intros builder; [done|].
  cbn [app renderChildrenLoop]. destruct (render c) as [s [err|]]; [done|].
  apply IH.
Qed.

(** The loop fails or every child renders. *)
Lemma renderChildrenLoop_cases render (cs : list Node) (builder : string) :
  (Forall (λ n, (render n).2 = None) cs
   ∧ renderChildrenLoop render cs builder
     = (builder +:+ concatStrings ((λ n, (render n).1) <$> cs), None))
  ∨ (∃ pre c post s err,
       cs = pre ++ c :: post ∧ Forall (λ n, (render n).2 = None) pre
       ∧ render c = (s, Some err)
       ∧ renderChildrenLoop render cs builder
         = (builder +:+ concatStrings ((λ n, (render n).1) <$> pre), Some err)).
Proof.
  induction cs as [|c cs IH].
  { left. split; [done|]. by rewrite renderChildrenLoop_success. }
  destruct (render c) as [s [err|]] eqn:Hc.
  - right. exists [], c, cs, s, err. split_and!; [done..|].
    by rewrite (renderChildrenLoop_first_failure render [] cs c s err).
  - destruct IH as [[Hall _]|(pre & c' & post & s' & err & -> & Hpre & Hc' & _)].
    + left. assert (Forall (λ n, (render n).2 = None) (c :: cs)) as Hall'.
      { constructor; [by rewrite Hc|done]. }
      split; [done|]. by rewrite renderChildrenLoop_success.
    + right. exists (c :: pre), c', post, s', err.
      assert (Forall (λ n, (render n).2 = None) (c :: pre)) as Hpre'.
      { constructor; [by rewrite Hc|done]. }
      split_and!; [done..|].
      by rewrite (renderChildrenLoop_first_failure render (c :: pre) post c' s' err).
Qed.

(** ** Induction over trees *)

Lemma Node_tree_ind (P : Node → Prop)
    (Htext : ∀ t, P (NodeText t))
    (Helement : ∀ tag void attrs children,
        Forall P children → P (NodeElement (mkElement tag void attrs children))) :
  ∀ node, P node.
Proof.
  fix IH 1. intros [t|[tag void attrs children]]; [apply Htext|].
  apply Helement. induction children as [|c rest IHrest]; constructor.
  - apply IH.
  - exact IHrest.
Qed.

(** ** Errors *)

Lemma Text_Render_no_error (t : Text) : (Text_Render t).2 = None.
Proof. unfold Text_Render. by destruct (String.eqb t ""). Qed.

(** X1: a render call that fails returns the empty string: no node ever
    returns markup together with an error. *)
Theorem X1_error_comes_with_empty_string (node : Node) (s : string) (err : error) :
  Node_Render node = (s, Some err) → s = "".
Proof.
  destruct node as [t|me]; cbn [Node_Render].
  - intros Hr. pose proof (Text_Render_no_error t) as Ht. by rewrite Hr in Ht.
  - destruct (decide (Tag me = "")) as [Htag|Htag].
    + rewrite Element_Render_empty_tag by done.
      destruct (Element_renderChildren me "") as [b [e|]]; by intros [= <- _].
    + rewrite Element_Render_tagged by done.
      destruct (Element_renderAttrs me _) as [b [e|]]; [by intros [= <- _]|].
      destruct (IsVoid me); [done|].
      by destruct (Element_renderChildren me _) as [b' [e|]].
Qed.

Lemma X1_error_comes_with_empty_string_witness :
  let node := NodeElement (Div [{["id" := anyString "a"; "x" := anyNil]}]) in
  Node_Render node = ("", Some (NilAttributeValue "x")) ∧ "" = "".
Proof.
  assert (Node_Render (NodeElement (Div [{["id" := anyString "a"; "x" := anyNil]}]))
          = ("", Some (NilAttributeValue "x"))) as Hr by (vm_compute; reflexivity).
  split; [exact Hr|].
  symmetry. exact (X1_error_comes_with_empty_string _ _ _ Hr).
Defined.

(** X2: an element with a tag fails to render exactly when one of its
    attributes is invalid; whether it fails, and with which error, does
    not depend on its children. *)
Theorem X2_tagged_element_fails_iff_attribute_invalid (me : Element) :
  Tag me ≠ "" →
  ((Element_Render me).2 = None ↔ validAttrs (Attrs me))
  ∧ ∀ children,
      (Element_Render (mkElement (Tag me) (IsVoid me) (Attrs me) children)).2
      = (Element_Render me).2.
Proof.
  intros Htag. split.
  - split.
    + intros Hok. destruct (decide (validAttrs (Attrs me))) as [|Hn]; [done|].
      apply not_validAttrs_invalid in Hn.
      destruct (Element_renderAttrs_invalid me ("<" +:+ Tag me) Hn) as [err Herr].
      rewrite Element_Render_tagged in Hok by done.
      destruct (Element_renderAttrs me _) as [b [e|]]; by simplify_eq/=.
    + intros Hvalid. rewrite Element_Render_valid by done.
      destruct (IsVoid me); [done|].
      by destruct (Element_renderChildren me "") as [b [e|]].
  - intros children. rewrite !Element_Render_tagged by done.
    unfold Element_renderAttrs. cbn [Tag IsVoid Attrs].
    destruct (renderAttrsFrom _ _) as [b [e|]]; [done|].
    destruct (IsVoid me); [done|].
    unfold Element_renderChildren.
    destruct (renderChildrenLoop _ _ _) as [b1 [e1|]];
      by destruct (renderChildrenLoop _ _ _) as [b2 [e2|]].
Qed.

Lemma X2_tagged_element_fails_iff_attribute_invalid_witness :
  Tag (mkElement "p" false {["class" := anyString "c"]}
         [NodeElement (Div [{["x" := anyNil]}])]) ≠ ""
  ∧ (Element_Render
       (mkElement "p" false {["class" := anyString "c"]}
          [NodeElement (Div [{["x" := anyNil]}])])).2 = None.
Proof.
  assert (Tag (mkElement "p" false {["class" := anyString "c"]}
                 [NodeElement (Div [{["x" := anyNil]}])]) ≠ "") as Htag
    by discriminate.
  split; [exact Htag|].
  destruct (X2_tagged_element_fails_iff_attribute_invalid _ Htag) as [[_ Hok] _].
  apply Hok. apply (bool_decide_unpack _). vm_compute. reflexivity.
Defined.

Lemma Element_Render_first_invalid (me : Element) (k : string) (v : any) :
  Tag me ≠ "" → Attrs me !! k = Some v → invalidAttr (k, v) →
  (∀ k' v', Attrs me !! k' = Some v' → strings_Compare k' k < 0 →
            validAttr (k', v')) →
  Element_Render me = ("", Some (attrError (k, v))).
Proof.
  intros Htag Hk Hinv Hbefore.
  pose proof (Element_renderAttrs_first_invalid me ("<" +:+ Tag me) k v
                Hk Hinv Hbefore) as Herr.
  rewrite Element_Render_tagged by done.
  destruct (Element_renderAttrs me ("<" +:+ Tag me)) as [b [e|]];
    cbn [snd] in Herr; [|done].
  by simplify_eq.
Qed.

(** X3: the error of an element with a tag is the error of its first
    invalid attribute in ascending key order, and it comes with the empty
    string: the empty key error when the trimmed key is empty, whatever
    the value; otherwise the nil value error or the type error, with the
    trimmed key in the message. *)
Theorem X3_first_invalid_attribute_decides_error (me : Element) (k : string)
    (v : any) :
  Tag me ≠ "" → Attrs me !! k = Some v → invalidAttr (k, v) →
  (∀ k' v', Attrs me !! k' = Some v' → strings_Compare k' k < 0 →
            validAttr (k', v')) →
  Element_Render me = ("", Some (attrError (k, v)))
  ∧ (strings_TrimSpace k = "" → attrError (k, v) = EmptyAttributeKey)
  ∧ (strings_TrimSpace k ≠ "" → v = anyNil →
     attrError (k, v) = NilAttributeValue (strings_TrimSpace k)
     ∧ error_Error (attrError (k, v))
       = "attribute '" +:+ strings_TrimSpace k +:+ "' has nil value")
  ∧ (strings_TrimSpace k ≠ "" → ∀ typ, v = anyOther typ →
     attrError (k, v) = InvalidAttributeType typ (strings_TrimSpace k)).
Proof.
  intros Htag Hk Hinv Hbefore. split_and!.
  - by apply Element_Render_first_invalid.
  - intros Hblank. unfold attrError. cbn [fst snd]. by rewrite Hblank.
  - intros Hkey ->. unfold attrError. cbn [fst snd].
    by rewrite eqb_empty_false.
  - intros Hkey typ ->. unfold attrError. cbn [fst snd].
    by rewrite eqb_empty_false.
Qed.

Lemma X3_first_invalid_attribute_decides_error_witness :
  Element_Render (Div [{["b" := anyNil]}]) = ("", Some (NilAttributeValue "b")).
Proof.
  assert (Tag (Div [{["b" := anyNil]}]) ≠ "") as Htag by discriminate.
  assert (Attrs (Div [{["b" := anyNil]}]) !! "b" = Some anyNil) as Hb
    by (vm_compute; reflexivity).
  assert (invalidAttr ("b", anyNil)) as Hinv by (right; left; reflexivity).
  destruct (X3_first_invalid_attribute_decides_error
              (Div [{["b" := anyNil]}]) "b" anyNil Htag Hb Hinv)
    as (Hr & _).
  - intros k' v' Hk' Hlt. cbn [Div newElement Attrs] in Hk'.
    apply lookup_singleton_Some in Hk' as [<- <-]. vm_compute in Hlt. done.
  - rewrite Hr. vm_compute. reflexivity.
Defined.

Lemma sliceTo_empty (j : nat) : sliceTo j "" = "".
Proof. by destruct j. Qed.

Lemma trimLeftRunes_all (f : rune → bool) (rs : list (rune * string)) :
  Forall (λ c, f c.1 = true) rs → trimLeftRunes f rs = "".
Proof.
  induction 1 as [|[r bs] rs Hr _ IH]; [done|].
  cbn [trimLeftRunes]. cbn [fst] in Hr. by rewrite Hr.
Qed.

(** A key made of white space only is trimmed to the empty string. *)
Lemma strings_TrimSpace_blank (k : string) :
  Forall (λ c, unicode_IsSpace c.1 = true) (rangeString k) →
  strings_TrimSpace k = "".
Proof.
  intros Hk. unfold strings_TrimSpace, strings_TrimLeftFunc.
  rewrite trimLeftRunes_all by done.
  unfold strings_TrimRightFunc. apply sliceTo_empty.
Qed.

(** X4: a key that holds nothing but white-space code points, the empty
    key included, is rejected with the empty key error, whatever its
    value is, when the attributes with smaller keys are valid. *)
Theorem X4_blank_key_is_rejected (me : Element) (k : string) (v : any) :
  Tag me ≠ "" → Attrs me !! k = Some v →
  Forall (λ c, unicode_IsSpace c.1 = true) (rangeString k) →
  (∀ k' v', Attrs me !! k' = Some v' → strings_Compare k' k < 0 →
            validAttr (k', v')) →
  Element_Render me = ("", Some EmptyAttributeKey).
Proof.
  intros Htag Hk Hblank Hbefore.
  pose proof (strings_TrimSpace_blank k Hblank) as Htrim.
  assert (invalidAttr (k, v)) as Hinv by (by left).
  rewrite (Element_Render_first_invalid me k v) by done.
  unfold attrError. cbn [fst snd]. by rewrite Htrim.
Qed.

Lemma X4_blank_key_is_rejected_witness :
  Element_Render (Div [{[String "009" emSpace := anyString "x"]}])
  = ("", Some EmptyAttributeKey).
Proof.
  assert (rangeString (String "009" emSpace) = [(9, String "009" ""); (0x2003, emSpace)])
    as Hrunes by (vm_compute; reflexivity).
  apply (X4_blank_key_is_rejected _ (String "009" emSpace) (anyString "x")).
  - discriminate.
  - cbn [Div newElement Attrs]. apply lookup_singleton_eq.
  - rewrite Hrunes. repeat constructor.
  - intros k' v' Hk' Hlt. cbn [Div newElement Attrs] in Hk'.
    apply lookup_singleton_Some in Hk' as [<- <-]. vm_compute in Hlt. done.
Defined.

(** ** Transparent wrappers *)

(** X5: a transparent wrapper renders its children in order: when all of
    them render, the result is their outputs one after the other; when one
    fails, the result is the error of the first child that fails, and the
    children after it play no part. *)
Theorem X5_wrapper_renders_children_in_order (me : Element) :
  Tag me = "" →
  (Forall (λ n, (Node_Render n).2 = None) (Children me)
   ∧ Element_Render me
     = (concatStrings ((λ n, (Node_Render n).1) <$> Children me), None))
  ∨ (∃ pre c post s err,
       Children me = pre ++ c :: post
       ∧ Forall (λ n, (Node_Render n).2 = None) pre
       ∧ Node_Render c = (s, Some err)
       ∧ ∀ post' attrs void,
           Element_Render (mkElement "" void attrs (pre ++ c :: post'))
           = ("", Some err)).
Proof.
  intros Htag.
  destruct (renderChildrenLoop_cases Node_Render (Children me) "")
    as [[Hall Hr]|(pre & c & post & s & err & Hcs & Hpre & Hc & _)].
  - left. split; [done|]. rewrite Element_Render_empty_tag by done.
    unfold Element_renderChildren. by rewrite Hr.
  - right. exists pre, c, post, s, err. split_and!; [done..|].
    intros post' attrs void.
    by apply (Element_Render_child_failure_wrapper _ pre post' c s err).
Qed.

Lemma X5_wrapper_renders_children_in_order_witness :
  Element_Render (mkElement "" false ∅ [NodeText "a"; NodeElement Br; NodeText "b"])
  = ("a<br>b", None).
Proof.
  destruct (X5_wrapper_renders_children_in_order
              (mkElement "" false ∅ [NodeText "a"; NodeElement Br; NodeText "b"])
              eq_refl)
    as [[_ Hr]|(pre & c & post & s & err & Hcs & Hpre & Hc & _)].
  - rewrite Hr. vm_compute. reflexivity.
  - exfalso. cbn [Children] in Hcs.
    assert (Forall (λ n, (Node_Render n).2 = None)
              [NodeText "a"; NodeElement Br; NodeText "b"]) as Hall
      by (repeat constructor).
    rewrite Hcs in Hall. apply Forall_app in Hall as [_ Hall].
    apply Forall_cons in Hall as [Hok _]. rewrite Hc in Hok. discriminate.
Defined.

(** Two child lists that give the same error, and the same output when
    there is none, give the same element. *)
Lemma Element_Render_children_ext (tag : string) (void : bool) (attrs : KV)
    (cs1 cs2 : list Node) :
  (∀ b, (renderChildrenLoop Node_Render cs1 b).2
        = (renderChildrenLoop Node_Render cs2 b).2
        ∧ ((renderChildrenLoop Node_Render cs1 b).2 = None →
           (renderChildrenLoop Node_Render cs1 b).1
           = (renderChildrenLoop Node_Render cs2 b).1)) →
  Element_Render (mkElement tag void attrs cs1)
  = Element_Render (mkElement tag void attrs cs2).
Proof.
  intros Hext. destruct (decide (tag = "")) as [->|Htag].
  - rewrite !Element_Render_empty_tag by done.
    unfold Element_renderChildren. cbn [Children].
    destruct (Hext "") as [He Hb].
    destruct (renderChildrenLoop Node_Render cs1 "") as [b1 [e1|]];
      destruct (renderChildrenLoop Node_Render cs2 "") as [b2 [e2|]];
      cbn [fst snd] in *; simplify_eq; [done|]. by rewrite Hb.
  - rewrite !Element_Render_tagged by done.
    unfold Element_renderAttrs, Element_renderChildren. cbn [Tag IsVoid Attrs Children].
    destruct (renderAttrsFrom _ _) as [b [e|]]; [done|].
    destruct void; [done|].
    destruct (Hext (b +:+ ">")) as [He Hb].
    destruct (renderChildrenLoop Node_Render cs1 _) as [b1 [e1|]];
      destruct (renderChildrenLoop Node_Render cs2 _) as [b2 [e2|]];
      cbn [fst snd] in *; simplify_eq; [done|]. by rewrite Hb.
Qed.

Lemma splice_loop (w : Element) (pre post : list Node) (b : string) :
  Tag w = "" →
  (renderChildrenLoop Node_Render (pre ++ NodeElement w :: post) b).2
  = (renderChildrenLoop Node_Render (pre ++ Children w ++ post) b).2
  ∧ ((renderChildrenLoop Node_Render (pre ++ NodeElement w :: post) b).2 = None →
     (renderChildrenLoop Node_Render (pre ++ NodeElement w :: post) b).1
     = (renderChildrenLoop Node_Render (pre ++ Children w ++ post) b).1).
Proof.
  intros Htag. rewrite !renderChildrenLoop_app.
  destruct (renderChildrenLoop Node_Render pre b) as [b' [e|]]; [done|].
  cbn [renderChildrenLoop Node_Render].
  rewrite Element_Render_empty_tag by done. unfold Element_renderChildren.
  rewrite (renderChildrenLoop_app _ (Children w) post).
  rewrite (renderChildrenLoop_builder _ (Children w) b').
  destruct (renderChildrenLoop Node_Render (Children w) "") as [out [e|]];
    cbn [fst snd]; done.
Qed.

(** X6: a transparent wrapper among the children of an element can be
    replaced by its own children: the element renders the same, output
    and error. *)
Theorem X6_wrapper_is_transparent (tag : string) (void : bool) (attrs : KV)
    (pre post : list Node) (w : Element) :
  Tag w = "" →
  Element_Render (mkElement tag void attrs (pre ++ NodeElement w :: post))
  = Element_Render (mkElement tag void attrs (pre ++ Children w ++ post)).
Proof.
  intros Htag. apply Element_Render_children_ext. intros b.
  by apply splice_loop.
Qed.

Lemma X6_wrapper_is_transparent_witness :
  Element_Render
    (mkElement "ul" false ∅
       [NodeText "a"; NodeElement (mkElement "" false ∅ [NodeText "b"; NodeText "c"])])
  = Element_Render (mkElement "ul" false ∅ [NodeText "a"; NodeText "b"; NodeText "c"]).
Proof.
  exact (X6_wrapper_is_transparent "ul" false ∅ [NodeText "a"] []
           (mkElement "" false ∅ [NodeText "b"; NodeText "c"]) eq_refl).
Defined.

(** X7: a conditional node that is switched off leaves no trace in the
    element that holds it, and one that is switched on is the node. *)
Theorem X7_If_false_leaves_no_trace (tag : string) (void : bool) (attrs : KV)
    (pre post : list Node) (result : Node) :
  Element_Render (mkElement tag void attrs (pre ++ utils.If false result :: post))
  = Element_Render (mkElement tag void attrs (pre ++ post))
  ∧ Node_Render (utils.If false result) = ("", None)
  ∧ utils.If true result = result.
Proof.
  split_and!; [|by vm_compute|done].
  apply Element_Render_children_ext. intros b.
  by apply (splice_loop (Empty []) pre post b).
Qed.

(** ** Whole trees *)

Lemma Node_markup_element (me : Element) :
  Node_markup (NodeElement me)
  = let inner := concatStrings (Node_markup <$> Children me) in
    if String.eqb (Tag me) "" then inner
    else if IsVoid me then openingTag me
    else openingTag me +:+ inner +:+ "</" +:+ Tag me +:+ ">".
Proof. by destruct me. Qed.

Lemma Node_wellFormed_element (me : Element) :
  Node_wellFormed (NodeElement me) = true →
  (Tag me = "" ∨ validAttrs (Attrs me))
  ∧ Forall (λ n, Node_wellFormed n = true) (Children me).
Proof.
  destruct me as [tag void attrs cs].
  cbn [Node_wellFormed Element_wellFormed Tag Attrs Children].
  intros [Hattrs Hcs]%andb_true_iff. split.
  - apply orb_true_iff in Hattrs as [Htag|Hvalid].
    + left. by apply String.eqb_eq.
    + right. by apply bool_decide_eq_true in Hvalid.
  - apply Forall_forall. intros n Hn. rewrite forallb_forall in Hcs.
    apply Hcs. by apply list_elem_of_In.
Qed.

(** X8: a tree in which every element with a tag has valid attributes
    renders without error, and its output is the markup of the tree by
    structure: escaped text, children one after the other, opening and
    closing tags around them, no children and no closing tag for a void
    element. *)
Theorem X8_well_formed_tree_renders_its_markup (node : Node) :
  Node_wellFormed node = true → Node_Render node = (Node_markup node, None).
Proof.
  induction node as [t|tag void attrs cs IH] using Node_tree_ind; intros Hwf.
  - cbn [Node_Render Node_markup].
    pose proof (Text_Render_no_error t) as Ht.
    by destruct (Text_Render t) as [s e]; simplify_eq/=.
  - apply Node_wellFormed_element in Hwf as [Hattrs Hcs].
    cbn [Tag Attrs Children] in Hattrs, Hcs.
    assert (renderChildrenLoop Node_Render cs ""
            = (concatStrings (Node_markup <$> cs), None)) as Hloop.
    { rewrite renderChildrenLoop_success.
      - rewrite append_nil_l. do 2 f_equal. apply Forall_fmap_ext_1.
        rewrite Forall_forall in IH, Hcs |- *.
        intros n Hn. by rewrite (IH n Hn (Hcs n Hn)).
      - rewrite Forall_forall in IH, Hcs |- *.
        intros n Hn. by rewrite (IH n Hn (Hcs n Hn)). }
    rewrite Node_markup_element. cbn [Node_Render Tag IsVoid Children]. cbv zeta.
    destruct (decide (tag = "")) as [->|Htag].
    + rewrite Element_Render_empty_tag by done.
      unfold Element_renderChildren. cbn [Children]. by rewrite Hloop.
    + destruct Hattrs as [?|Hvalid]; [done|].
      rewrite Element_Render_valid by done. cbn [Tag IsVoid].
      rewrite eqb_empty_false by done.
      destruct void; [done|].
      unfold Element_renderChildren. cbn [Children]. by rewrite Hloop.
Qed.

Lemma X8_well_formed_tree_renders_its_markup_witness :
  Node_Render
    (NodeElement
       (mkElement "div" false {["id" := anyString "m"]}
          [NodeText "Hello"; NodeElement Br;
           NodeElement (mkElement "" false {["x" := anyNil]} [NodeText "you"])]))
  = ("<div id=" +:+ dquote +:+ "m" +:+ dquote +:+ ">Hello<br>you</div>", None).
Proof.
  rewrite X8_well_formed_tree_renders_its_markup.
  - vm_compute. reflexivity.
  - vm_compute. reflexivity.
Defined.

(** ** Text nodes *)

(** What [html.EscapeString] returns holds none of the bytes that open or
    close a tag or a quoted value. *)
Lemma html_EscapeString_safe (s : string) :
  Forall (λ c, c ≠ "<"%char ∧ c ≠ ">"%char ∧ c ≠ "034"%char ∧ c ≠ "'"%char)
    (bytesOf (html_EscapeString s)).
Proof.
  induction s as [|c s IH]; [constructor|].
  cbn [html_EscapeString]. rewrite bytesOf_app. apply Forall_app. split; [|done].
  unfold escapeByte.
  destruct (Ascii.eqb c "&") eqn:H1; [by repeat constructor|].
  destruct (Ascii.eqb c "'") eqn:H2; [by repeat constructor|].
  destruct (Ascii.eqb c "<") eqn:H3; [by repeat constructor|].
  destruct (Ascii.eqb c ">") eqn:H4; [by repeat constructor|].
  destruct (Ascii.eqb c "034") eqn:H5; [by repeat constructor|].
  apply Ascii.eqb_neq in H2, H3, H4, H5. by repeat constructor.
Qed.

(** X9: the output of a text node never holds a less-than sign, a
    greater-than sign, a double quote or a single quote: text cannot open
    or close a tag or an attribute value. *)
Theorem X9_text_output_has_no_markup_bytes (t : Text) :
  Forall (λ c, c ≠ "<"%char ∧ c ≠ ">"%char ∧ c ≠ "034"%char ∧ c ≠ "'"%char)
    (bytesOf (Text_Render t).1).
Proof.
  unfold Text_Render. destruct (String.eqb t ""); [constructor|].
  cbv zeta. cbn [fst]. apply html_EscapeString_safe.
Qed.

Lemma singleSpacedFrom_cons (prev : bool) (c : ascii) (t : string) :
  singleSpacedFrom prev (String c t) = true →
  (rune_of_byte c <? utf8_RuneSelf) = true
  ∧ ((isSpaceByte c = true ∧ prev = false ∧ c = " "%char
      ∧ singleSpacedFrom true t = true)
     ∨ (isSpaceByte c = false ∧ singleSpacedFrom false t = true)).
Proof.
  cbn [singleSpacedFrom]. intros [Hascii Hrest]%andb_true_iff. split; [done|].
  destruct (isSpaceByte c); [left|by right].
  apply andb_true_iff in Hrest as [[Hprev Hc]%andb_true_iff Ht].
  split_and!; [done| |by apply Ascii.eqb_eq|done]. by destruct prev.
Qed.

(** The fields of single-spaced text, joined, are the text. *)
Lemma fieldsLoop_singleSpaced (s : string) :
  (singleSpacedFrom false s = true →
   ∀ w, strings_Join (fieldsLoop unicode_IsSpace (rangeString s) (Some w)) " "
        = w +:+ s)
  ∧ (singleSpacedFrom true s = true →
     strings_Join (fieldsLoop unicode_IsSpace (rangeString s) None) " " = s
     ∧ fieldsLoop unicode_IsSpace (rangeString s) None ≠ []).
Proof.
  induction s as [|c t [IHw IHs]].
  { split; [|done]. intros _ w. cbn. by rewrite append_nil_r. }
  split.
  - intros [Hascii Hc]%singleSpacedFrom_cons w.
    rewrite rangeString_ascii by done.
    destruct Hc as [(Hsp & _ & -> & Ht)|[Hsp Ht]].
    + rewrite fieldsLoop_space by done. rewrite Join_cons.
      destruct (IHs Ht) as [Hjoin Hne].
      destruct (fieldsLoop unicode_IsSpace (rangeString t) None) as [|x l] eqn:Hl;
        [done|].
      unfold sepJoin. by rewrite Hjoin.
    + rewrite fieldsLoop_word by done. rewrite (IHw Ht).
      by rewrite append_assoc.
  - intros [Hascii Hc]%singleSpacedFrom_cons.
    rewrite rangeString_ascii by done.
    destruct Hc as [(_ & ? & _)|[Hsp Ht]]; [done|].
    rewrite fieldsLoop_word by done. split.
    + by rewrite (IHw Ht).
    + apply fieldsLoop_in_word_nonempty.
Qed.

Lemma singleSpacedFrom_last (prev : bool) (s : string) :
  singleSpacedFrom prev s = true → s ≠ "" →
  isSpaceByte (byteAt s (String.length s - 1)) = false.
Proof.
  revert prev. induction s as [|c t IH]; intros prev Hs Hne; [done|].
  apply singleSpacedFrom_cons in Hs as [_ Hc].
  destruct t as [|c' t'].
  - destruct Hc as [(_ & _ & _ & Ht)|[Hsp _]]; done.
  - assert (byteAt (String c (String c' t')) (String.length (String c (String c' t')) - 1)
            = byteAt (String c' t') (String.length (String c' t') - 1)) as ->.
    { cbn [String.length]. rewrite !Nat.sub_succ, !Nat.sub_0_r. done. }
    destruct Hc as [(_ & _ & _ & Ht)|[_ Ht]]; by eapply IH.
Qed.

(** X10: single-spaced ASCII text, that is bytes below 128 with single
    spaces between the words and none at the ends, keeps its spacing:
    [Text.Render] returns its escaped form. *)
Theorem X10_single_spaced_text_keeps_its_spacing (t : Text) :
  singleSpaced t = true → Text_Render t = (html_EscapeString t, None).
Proof.
  intros Hs. unfold singleSpaced in Hs.
  assert (t ≠ "") as Hne by (by intros ->).
  destruct (fieldsLoop_singleSpaced t) as [_ Hjoin].
  destruct (Hjoin Hs) as [Hj _].
  pose proof (singleSpacedFrom_last true t Hs Hne) as Hlast.
  unfold Text_Render. rewrite eqb_empty_false by done. cbv zeta.
  unfold strings_FieldsFunc. rewrite Hj.
  unfold isSpaceByte in Hlast. rewrite Hlast, andb_false_r.
  destruct t as [|c t]; [done|].
  apply singleSpacedFrom_cons in Hs as [_ [(_ & ? & _)|[Hsp _]]]; [done|].
  unfold isSpaceByte in Hsp. change (byteAt (String c t) 0) with c.
  by rewrite Hsp.
Qed.

Lemma X10_single_spaced_text_keeps_its_spacing_witness :
  Text_Render "Tom & Jerry <3" = ("Tom &amp; Jerry &lt;3", None).
Proof.
  rewrite X10_single_spaced_text_keeps_its_spacing.
  - vm_compute. reflexivity.
  - vm_compute. reflexivity.
Defined.

(** ** Building trees *)

(** X11: adding children in two calls is adding them in one; [Add] keeps
    the tag, the void flag and the attributes, returns the element it
    leaves, appends to the children of an element without the void flag,
    and with no children to add it changes nothing. *)
Theorem X11_Add_composes (me : Element) (a b : list Node) :
  Element_Add (Element_Add me a).1 b = Element_Add me (a ++ b)
  ∧ Tag (Element_Add me a).1 = Tag me
  ∧ IsVoid (Element_Add me a).1 = IsVoid me
  ∧ Attrs (Element_Add me a).1 = Attrs me
  ∧ Children (Element_Add me a).1
    = (if IsVoid me then Children me else Children me ++ a)
  ∧ (Element_Add me a).2 = NodeElement (Element_Add me a).1
  ∧ Element_Add me [] = (me, NodeElement me).
Proof.
  destruct me as [tag [] attrs cs]; unfold Element_Add;
    cbn [IsVoid negb fst snd Tag Attrs Children].
  - done.
  - rewrite app_nil_r, app_assoc. done.
Qed.

(** X12: adding children to an element with a tag, no void flag and
    valid attributes whose children render puts their output, in order,
    after the output of the children it has and before the closing tag. *)
Theorem X12_Add_appends_to_the_output (me : Element) (children : list Node) :
  Tag me ≠ "" → IsVoid me = false → validAttrs (Attrs me) →
  Forall (λ n, (Node_Render n).2 = None) (Children me) →
  Forall (λ n, (Node_Render n).2 = None) children →
  Element_Render (Element_Add me children).1
  = (openingTag me
       +:+ concatStrings ((λ n, (Node_Render n).1) <$> Children me)
       +:+ concatStrings ((λ n, (Node_Render n).1) <$> children)
       +:+ "</" +:+ Tag me +:+ ">", None).
Proof.
  intros Htag Hvoid Hvalid Hold Hnew.
  destruct me as [tag void attrs cs]. cbn [Tag IsVoid Attrs Children] in *.
  subst void. unfold Element_Add. cbn [IsVoid negb fst Tag Attrs Children].
  rewrite Element_Render_valid by done. cbn [IsVoid Tag].
  unfold Element_renderChildren. cbn [Children].
  rewrite renderChildrenLoop_success by (by apply Forall_app).
  rewrite append_nil_l, fmap_app, concatStrings_app.
  unfold openingTag. cbn [Tag Attrs]. by rewrite !append_assoc.
Qed.

Lemma X12_Add_appends_to_the_output_witness :
  Element_Render
    (Element_Add (mkElement "ul" false ∅ [NodeText "a"]) [NodeText "b"; NodeElement Br]).1
  = ("<ul>ab<br></ul>", None).
Proof.
  rewrite X12_Add_appends_to_the_output.
  - vm_compute. reflexivity.
  - discriminate.
  - reflexivity.
  - apply (bool_decide_unpack _). vm_compute. reflexivity.
  - repeat constructor.
  - repeat constructor.
Defined.

Lemma SortFunc_empty : slices_SortFunc (map_to_list (∅ : KV)) kv_cmp = [].
Proof. by rewrite map_to_list_empty. Qed.

(** X13: what [newElement] builds.  Only the first attribute map and the
    first flag are used; without a map the attributes are empty; the
    element has no children, and with a tag and no attributes it renders
    as the bare opening tag when void and as the empty pair of tags
    otherwise. *)
Theorem X13_newElement (tag : string) (attrs : list KV) (isVoid : list bool) :
  newElement tag attrs isVoid
  = mkElement tag (default false (head isVoid)) (default ∅ (head attrs)) []
  ∧ (tag ≠ "" →
     Element_Render (newElement tag [] isVoid)
     = (if default false (head isVoid) then "<" +:+ tag +:+ ">"
        else "<" +:+ tag +:+ "></" +:+ tag +:+ ">", None))
  ∧ Element_Render (newElement "" attrs isVoid) = ("", None).
Proof.
  split_and!.
  - by destruct attrs, isVoid.
  - intros Htag.
    assert (newElement tag [] isVoid
            = mkElement tag (default false (head isVoid)) ∅ []) as ->
      by (by destruct isVoid).
    rewrite Element_Render_valid; [|done|apply map_Forall_empty].
    unfold openingTag, Element_renderChildren. cbn [Tag IsVoid Attrs Children].
    rewrite SortFunc_empty. cbn [fmap list_fmap concatStrings renderChildrenLoop].
    destruct (default false (head isVoid));
      by rewrite ?append_nil_l, ?append_assoc.
  - rewrite Element_Render_empty_tag by (by destruct attrs, isVoid).
    by destruct attrs, isVoid.
Qed.

Lemma X13_newElement_witness :
  Element_Render (newElement "hr" [] [true; false]) = ("<hr>", None).
Proof.
  destruct (X13_newElement "hr" [] [true; false]) as (_ & Hr & _).
  rewrite Hr; [reflexivity|discriminate].
Defined.

(** X14: the factories of html.go that give a tag.  Each of them builds an
    element with a non-empty tag and no children, whose attributes are the
    first map passed, or none; it sets the void flag exactly for the tags
    [area], [base], [br], [col], [embed], [hr], [img], [input], [link],
    [meta], [source], [track] and [wbr]; and no two factories give the
    same tag. *)
Theorem X14_tag_factories :
  Forall (λ F : list KV → Element, ∀ attrs,
            Tag (F attrs) ≠ ""
            ∧ Children (F attrs) = []
            ∧ IsVoid (F attrs) = bool_decide (Tag (F attrs) ∈ voidTags)
            ∧ (Attrs (F attrs) = ∅ ∨ head attrs = Some (Attrs (F attrs))))
    tagFactories
  ∧ NoDup ((λ F : list KV → Element, Tag (F [])) <$> tagFactories)
  ∧ length tagFactories = 116%nat.
Proof.
  split_and!.
  - unfold tagFactories.
    repeat (apply List.Forall_cons;
            [intros [|a rest];
             (split_and!;
              [discriminate|reflexivity|vm_compute; reflexivity
              |first [left; reflexivity|right; reflexivity]])|]).
    apply List.Forall_nil.
  - apply (bool_decide_unpack _). vm_compute. reflexivity.
  - reflexivity.
Qed.

(** ** The helpers of package utils *)

Lemma MapLoop_children {T : Type} (input : list T) (f : T → Node)
    (result : Element) :
  utils.MapLoop input f result
  = mkElement (Tag result) (IsVoid result) (Attrs result)
      (Children result ++ (f <$> input)).
Proof.
  revert result. induction input as [|x input IH]; intros result.
  - cbn [utils.MapLoop fmap list_fmap]. rewrite app_nil_r. by destruct result.
  - cbn [utils.MapLoop]. rewrite IH. cbn [Tag IsVoid Attrs Children].
    by rewrite <-app_assoc.
Qed.

(** X15: [Map] gives a transparent wrapper around the nodes of the items,
    in order.  It renders to their outputs one after the other when all
    render, and to the error of the first item whose node fails. *)
Theorem X15_Map_renders_the_items {T : Type} (input : list T) (f : T → Node) :
  utils.Map input f = NodeElement (mkElement "" false ∅ (f <$> input))
  ∧ ((Forall (λ x, (Node_Render (f x)).2 = None) input
      ∧ Node_Render (utils.Map input f)
        = (concatStrings ((λ x, (Node_Render (f x)).1) <$> input), None))
     ∨ (∃ pre x post s err,
          input = pre ++ x :: post
          ∧ Forall (λ x, (Node_Render (f x)).2 = None) pre
          ∧ Node_Render (f x) = (s, Some err)
          ∧ Node_Render (utils.Map input f) = ("", Some err))).
Proof.
  assert (utils.Map input f = NodeElement (mkElement "" false ∅ (f <$> input)))
    as Hmap.
  { unfold utils.Map. cbv zeta. by rewrite MapLoop_children. }
  split; [done|]. rewrite Hmap. cbn [Node_Render].
  rewrite Element_Render_empty_tag by done.
  unfold Element_renderChildren. cbn [Children]. clear Hmap.
  induction input as [|x input IH].
  { left. by split. }
  rewrite fmap_cons. cbn [renderChildrenLoop].
  destruct (Node_Render (f x)) as [s [err|]] eqn:Hx.
  - right. exists [], x, input, s, err. by split_and!.
  - rewrite renderChildrenLoop_builder.
    destruct IH as [[Hall Hr]|(pre & y & post & s' & err & -> & Hpre & Hy & Hr)].
    + left. split; [constructor; [by rewrite Hx|done]|].
      destruct (renderChildrenLoop Node_Render (f <$> input) "") as [out [e|]];
        [done|].
      simplify_eq. rewrite fmap_cons. cbn [concatStrings fst snd].
      by rewrite Hx, append_nil_l.
    + right. exists (x :: pre), y, post, s', err.
      split_and!; [done|constructor; [by rewrite Hx|done]|done|].
      destruct (renderChildrenLoop Node_Render (f <$> pre ++ y :: post) "")
        as [out [e|]]; [|done].
      by simplify_eq.
Qed.




(** ** Rendering into a buffer *)

(** X17: rendering into a buffer appends the output of the node.  Two
    nodes rendered one after the other leave the same bytes as a wrapper
    around both rendered once; but when the second node fails, the two
    calls leave the output of the first in the buffer, while the wrapper
    leaves the buffer as it was. *)
Theorem X17_buffer_rendering (buf : string) (a b : Node) (sa : string) :
  Node_Render a = (sa, None) →
  Render Buffer_Write buf a = (buf +:+ sa, None)
  ∧ (∀ sb, Node_Render b = (sb, None) →
       Render Buffer_Write (Render Buffer_Write buf a).1 b
       = (buf +:+ sa +:+ sb, None)
       ∧ Render Buffer_Write buf (Element_Add (Empty []) [a; b]).2
         = (buf +:+ sa +:+ sb, None))
  ∧ (∀ sb err, Node_Render b = (sb, Some err) →
       Render Buffer_Write (Render Buffer_Write buf a).1 b
       = (buf +:+ sa, Some err)
       ∧ Render Buffer_Write buf (Element_Add (Empty []) [a; b]).2
         = (buf, Some err)).
Proof.
  intros Ha.
  assert (Render Buffer_Write buf a = (buf +:+ sa, None)) as Hra.
  { unfold Render. by rewrite Ha. }
  split_and!; [done| |].
  - intros sb Hb. rewrite Hra. cbn [fst]. split.
    + unfold Render. rewrite Hb. unfold Buffer_Write. by rewrite append_assoc.
    + unfold Render, Element_Add.
      cbn [Empty newElement IsVoid negb snd Tag Attrs Children app].
      cbn [Node_Render Element_Render Tag String.eqb Children renderChildrenLoop].
      rewrite Ha, Hb. by rewrite append_nil_l.
  - intros sb err Hb. rewrite Hra. cbn [fst]. split.
    + unfold Render. by rewrite Hb.
    + unfold Render, Element_Add.
      cbn [Empty newElement IsVoid negb snd Tag Attrs Children app].
      cbn [Node_Render Element_Render Tag String.eqb Children renderChildrenLoop].
      by rewrite Ha, Hb.
Qed.

Lemma X17_buffer_rendering_witness :
  Render Buffer_Write "<!DOCTYPE html>" (NodeElement (Div []))
  = ("<!DOCTYPE html><div></div>", None).
Proof.
  destruct (X17_buffer_rendering "<!DOCTYPE html>" (NodeElement (Div []))
              (NodeText "") "<div></div>") as (Hr & _).
  - vm_compute. reflexivity.
  - exact Hr.
Defined.

(** ** Text nodes in ASCII *)

(** X18: on ASCII text the boundary test of [Text.Render] is the test on
    the first and on the last character: the result is the escaped form
    of the collapsed text, with one space in front when the text starts
    with white space and one space behind when it is longer than one
    character and ends with white space. *)
Theorem X18_ascii_text_boundaries (t : Text) :
  isASCII t = true → t ≠ "" →
  Text_Render t
  = (html_EscapeString
       ((if startsWithSpaceRune t then " " else "")
          +:+ collapseWhitespace t
          +:+ (if (1 <? length (rangeString t))%nat && endsWithSpaceRune t
               then " " else "")), None).
Proof.
  intros Hascii Hne. rewrite Text_Render_nonempty by done.
  unfold leadingSpace, trailingSpace, startsWithSpaceRune, endsWithSpaceRune.
  rewrite rangeString_isASCII by done.
  rewrite length_fmap, length_bytesOf, fmap_last, last_bytesOf by done.
  destruct t as [|c t']; [done|]. done.
Qed.

Lemma X18_ascii_text_boundaries_witness :
  Text_Render (String "009" "a  b ") = (" a b ", None).
Proof.
  rewrite X18_ascii_text_boundaries.
  - vm_compute. reflexivity.
  - vm_compute. reflexivity.
  - discriminate.
Defined.

Lemma fieldsLoop_blank (rs : list (rune * string)) :
  Forall (λ c, unicode_IsSpace c.1 = true) rs →
  fieldsLoop unicode_IsSpace rs None = [].
Proof.
  induction 1 as [|[r bs] rs Hr _ IH]; [done|].
  cbn [fst] in Hr. by rewrite fieldsLoop_space.
Qed.

(** X19: text that holds nothing but ASCII white space renders to a
    single space when it is one byte long and to two spaces when it is
    longer. *)
Theorem X19_blank_text (t : Text) :
  isBlankASCII t = true → t ≠ "" →
  Text_Render t = (if (1 <? String.length t)%nat then "  " else " ", None).
Proof.
  intros Hblank Hne. unfold isBlankASCII in Hblank.
  rewrite forallb_forall in Hblank.
  assert (isASCII t = true) as Hascii.
  { unfold isASCII. apply forallb_forall. intros c Hc.
    by apply Hblank, andb_true_iff in Hc as [? _]. }
  assert (∀ c, c ∈ bytesOf t → isSpaceByte c = true) as Hsp.
  { intros c Hc%list_elem_of_In. by apply Hblank, andb_true_iff in Hc as [_ ?]. }
  unfold Text_Render. rewrite eqb_empty_false by done. cbv zeta.
  unfold strings_FieldsFunc. rewrite fieldsLoop_blank; last first.
  { rewrite rangeString_isASCII by done. apply Forall_fmap, Forall_forall.
    intros c Hc. by apply Hsp. }
  assert (unicode_IsSpace (rune_of_byte (byteAt t 0)) = true) as ->.
  { destruct t as [|c t']; [done|]. apply (Hsp c). by left. }
  assert (unicode_IsSpace (rune_of_byte (byteAt t (String.length t - 1))) = true)
    as ->.
  { apply (Hsp (byteAt t (String.length t - 1))).
    apply last_Some_elem_of. by apply last_bytesOf. }
  rewrite andb_true_r. by destruct (1 <? String.length t)%nat.
Qed.

Lemma X19_blank_text_witness :
  Text_Render (String "010" (String "009" " ")) = ("  ", None).
Proof.
  rewrite X19_blank_text.
  - reflexivity.
  - vm_compute. reflexivity.
  - discriminate.
Defined.

(** ** Where errors come from *)

Lemma Element_renderAttrs_error (me : Element) (b : string) (err : error) :
  (Element_renderAttrs me b).2 = Some err →
  ∃ k v, Attrs me !! k = Some v ∧ invalidAttr (k, v) ∧ err = attrError (k, v).
Proof.
  unfold Element_renderAttrs, renderAttrsFrom. cbv zeta. intros Herr.
  set (sorted := slices_SortFunc (map_to_list (Attrs me)) kv_cmp) in *.
  destruct (decide (Forall validAttr sorted)) as [Hall|Hn].
  { by rewrite renderAttrsLoop_valid in Herr. }
  apply not_Forall_Exists in Hn; [|apply _].
  assert (Exists invalidAttr sorted) as Hex.
  { eapply Exists_impl; [exact Hn|]. intros a Ha.
    by destruct (validAttr_or_invalid a). }
  destruct (first_invalid_split sorted Hex) as (pre & [k v] & post & Heq & Hpre & Ha).
  rewrite Heq, (renderAttrsLoop_first_invalid pre post (k, v)) in Herr by done.
  exists k, v. split_and!; [|done|by simplify_eq].
  apply elem_of_map_to_list. rewrite <-(SortFunc_Permutation (map_to_list _)).
  fold sorted. rewrite Heq. apply elem_of_app. right. by left.
Qed.

(** X20: every error that a render call returns is the error of an
    invalid attribute: the empty key error, the nil value error or the
    type error; rendering creates no other error. *)
Theorem X20_errors_are_attribute_errors (node : Node) (s : string) (err : error) :
  Node_Render node = (s, Some err) →
  ∃ k v, invalidAttr (k, v) ∧ err = attrError (k, v)
         ∧ (err = EmptyAttributeKey
            ∨ err = NilAttributeValue (strings_TrimSpace k)
            ∨ ∃ typ, err = InvalidAttributeType typ (strings_TrimSpace k)).
Proof.
  revert s err.
  induction node as [t|tag void attrs cs IH] using Node_tree_ind; intros s err Hr.
  - cbn [Node_Render] in Hr. pose proof (Text_Render_no_error t) as Ht.
    by rewrite Hr in Ht.
  - cbn [Node_Render] in Hr. destruct (decide (tag = "")) as [->|Htag].
    + rewrite Element_Render_empty_tag in Hr by done.
      unfold Element_renderChildren in Hr. cbn [Children] in Hr.
      destruct (renderChildrenLoop_cases Node_Render cs "")
        as [[_ Hok]|(pre & c & post & s' & err' & -> & _ & Hc & Hfail)].
      { by rewrite Hok in Hr. }
      rewrite Hfail in Hr. simplify_eq.
      apply Forall_app in IH as [_ IH]. apply Forall_cons in IH as [IHc _].
      by apply (IHc s').
    + rewrite Element_Render_tagged in Hr by done. cbn [Tag IsVoid] in Hr.
      destruct (Element_renderAttrs _ _) as [b [e|]] eqn:Hattrs.
      * simplify_eq.
        destruct (Element_renderAttrs_error (mkElement tag void attrs cs)
                    ("<" +:+ tag) err) as (k & v & _ & Hinv & ->).
        { by rewrite Hattrs. }
        exists k, v. split_and!; [done..|].
        unfold attrError. cbn [fst snd].
        destruct (String.eqb (strings_TrimSpace k) "") eqn:Hk; [by left|].
        apply String.eqb_neq in Hk.
        destruct Hinv as [?|[Hv|[typ Hv]]]; cbn [fst snd] in *; [done|..];
          rewrite Hv; eauto.
      * destruct void; [done|].
        by destruct (Element_renderChildren _ _) as [b' [e|]].
Qed.

Lemma X20_errors_are_attribute_errors_witness :
  ∃ k v, invalidAttr (k, v)
         ∧ NilAttributeValue "x" = attrError (k, v)
         ∧ (NilAttributeValue "x" = EmptyAttributeKey
            ∨ NilAttributeValue "x" = NilAttributeValue (strings_TrimSpace k)
            ∨ ∃ typ, NilAttributeValue "x"
                     = InvalidAttributeType typ (strings_TrimSpace k)).
Proof.
  apply (X20_errors_are_attribute_errors
           (NodeElement (mkElement "" false ∅ [NodeElement (Div [{["x" := anyNil]}])]))
           "").
  vm_compute. reflexivity.
Defined.
